(** * Letter Invaders (Go): the game engine of [main.go], embedded and verified

    [main.go] exists in two revisions, both modelled here and told apart by a
    [variant]:
    - [VariantA]: the plain game (word cap 10, no minimum word count,
      dictionary lines of any positive length, [q] quits, [ctrl+p] pauses);
    - [VariantB]: the game with explosions (word cap 8, a minimum word count
      growing with the level, dictionary lines of 1 to 12 bytes, space pauses).

    Conventions of the embedding:
    - Go's [int] is a 64-bit integer: a [Z] reduced by [wrap] after every
      addition, subtraction and multiplication;
    - a [string] is its sequence of bytes ([len] counts bytes);
    - a slice is a [list]; [s[i]] is a lookup that panics out of range,
      [append(s[:i], s[i+1:]...)] is [delete i s];
    - [m.current], a pointer to a slot of the backing array of [m.words], is
      the index of that slot;
    - a [float64] is an IEEE 754 binary64 number, with the operations of
      the standard library's specification of floating-point arithmetic
      (round to nearest, ties to even; every operation rounded on its own);
      [math.Cos] and [math.Sin] are parameters ([MathLib]);
    - [strings.TrimSpace] and [strings.ToLower] are parameters
      ([StringsLib]), known only not to lengthen a string, respectively to
      give at most [utf8.UTFMax] bytes for each byte read;
    - [math/rand] is an oracle: the sequence of values it hands out, call by
      call; a computation that draws from it threads the oracle ([M]);
    - a panic is the result [None].

    [View] and [renderGameOver] are not modelled: they format text with
    terminal styles and read the clock and the current word through its
    pointer. *)

From Stdlib Require Import ZArith String Ascii Lia Sorted SpecFloat.
From stdpp Require Import base numbers list sorting.

Local Open Scope Z_scope.

(** ** The Go runtime *)

Module Go.

Definition int := Z.
(** [float64]: IEEE 754 binary64. *)
Definition float64 := spec_float.
Definition prec : Z := 53.
Definition emax : Z := 1024.
Definition rune := ascii.

Definition minInt : int := - 2 ^ 63.
Definition maxInt : int := 2 ^ 63 - 1.

(** Two's complement wrap-around of a 64-bit signed integer. *)
Definition wrap (z : Z) : int := (z + 2 ^ 63) mod 2 ^ 64 - 2 ^ 63.

Definition add (a b : int) : int := wrap (a + b).
Definition sub (a b : int) : int := wrap (a - b).
Definition mul (a b : int) : int := wrap (a * b).

(** [len(s)] of a string: its number of bytes. *)
Definition len (s : string) : int := Z.of_nat (String.length s).

(** [len(s)] of a slice. *)
Definition len_slice {A} (s : list A) : int := Z.of_nat (length s).

(** [strings.HasPrefix(s, p)]. *)
Definition HasPrefix (s p : string) : bool := String.prefix p s.

(** [a + b], [a - b], [a * b] and [a / b] on [float64]. *)
Definition fadd : float64 -> float64 -> float64 := SFadd prec emax.
Definition fsub : float64 -> float64 -> float64 := SFsub prec emax.
Definition fmul : float64 -> float64 -> float64 := SFmul prec emax.
Definition fdiv : float64 -> float64 -> float64 := SFdiv prec emax.

(** [float64(n)]. *)
Definition float64_of_int (n : int) : float64 :=
  binary_normalize prec emax n 0 false.

(** A decimal constant of the source, [n / d] ([0.15] is [decimal 15 100]):
    the [float64] nearest to it. *)
Definition decimal (n d : Z) : float64 :=
  fdiv (float64_of_int n) (float64_of_int d).

(** [a < b], [a <= b] and [a == b] on [float64]. *)
Definition flt (a b : float64) : bool := SFltb a b.

(** White space among the ASCII bytes:
    tab, line feed, vertical tab, form feed, carriage return and space. *)
Definition isSpace (c : ascii) : bool :=
  let n := nat_of_ascii c in
  ((9 <=? n)%nat && (n <=? 13)%nat) || (n =? 32)%nat.

Fixpoint trimLeft (s : string) : string :=
  match s with
  | EmptyString => EmptyString
  | String c s' => if isSpace c then trimLeft s' else s
  end.

Fixpoint trimRight (s : string) : string :=
  match s with
  | EmptyString => EmptyString
  | String c s' =>
      match trimRight s' with
      | EmptyString => if isSpace c then EmptyString else String c EmptyString
      | t => String c t
      end
  end.

(** What [strings.TrimSpace] does to ASCII text. *)
Definition asciiTrimSpace (s : string) : string := trimRight (trimLeft s).

Definition isUpper (c : ascii) : bool :=
  let n := nat_of_ascii c in (65 <=? n)%nat && (n <=? 90)%nat.

Definition toLower (c : ascii) : ascii :=
  if isUpper c then ascii_of_nat (nat_of_ascii c + 32) else c.

(** What [strings.ToLower] does to ASCII text. *)
Fixpoint asciiToLower (s : string) : string :=
  match s with
  | EmptyString => EmptyString
  | String c s' => String (toLower c) (asciiToLower s')
  end.

End Go.

Import Go.

(** ** [math/rand] as an oracle, and panics *)

(** The values the generator hands out, call by call. *)
Definition rng := nat -> N.

Definition advance (g : rng) : rng := fun k => g (S k).

(** A computation that may draw random values and may panic. *)
Definition M (A : Type) : Type := rng -> option (A * rng).

Definition ret {A} (a : A) : M A := fun g => Some (a, g).

Definition bind {A B} (c : M A) (k : A -> M B) : M B :=
  fun g => match c g with
           | Some (a, g') => k a g'
           | None => None
           end.

Definition panic {A} : M A := fun _ => None.

Declare Scope go_scope.
Delimit Scope go_scope with go.
Notation "x <- c ;; k" := (bind c (fun x => k))
  (at level 100, c at next level, right associativity) : go_scope.
Local Open Scope go_scope.

(** [rand.Intn(n)]: panics unless [0 < n]; any value of [[0, n)]. *)
Definition Intn (n : int) : M int :=
  fun g => if n <=? 0 then None
           else Some (Z.of_N (g 0%nat) mod n, advance g).

(** [rand.Float64()]: [k / 2^53] for some [0 <= k < 2^53]. *)
Definition Float64 : M float64 :=
  fun g => Some (fdiv (float64_of_int (Z.of_N (g 0%nat) mod 2 ^ 53))
                   (float64_of_int (2 ^ 53)), advance g).

(** [s[i]] on a slice. *)
Definition index {A} (s : list A) (i : nat) : M A :=
  match s !! i with
  | Some a => ret a
  | None => panic
  end.

(** [math.Cos] and [math.Sin]. *)
Class MathLib := { Cos : float64 -> float64; Sin : float64 -> float64 }.

(** [utf8.UTFMax]: the most bytes a rune is encoded in. *)
Definition UTFMax : int := 4.

(** Package [strings]: [TrimSpace] and [ToLower], on any bytes (UTF-8 or
    not). They are parameters, of which two facts are used. [TrimSpace]
    returns a slice of its argument, so no more bytes. [ToLower] maps the
    string rune by rune: for each rune it reads, one byte at least, it writes
    one rune, [UTFMax] bytes at most (an invalid byte becomes U+FFFD, three
    bytes); it can lengthen the string. *)
Class StringsLib := {
  TrimSpace : string -> string;
  ToLower : string -> string;
  TrimSpace_len : forall s, len (TrimSpace s) <= len s;
  ToLower_len : forall s, len (ToLower s) <= UTFMax * len s }.

(** ** The data of the game *)

Definition screenWidth : int := 80.
Definition screenHeight : int := 23.
Definition statusHeight : int := 2.
Definition gameHeight : int := screenHeight - statusHeight.

Inductive variant := VariantA | VariantB.

Module Word.
#[projections(primitive)]
Record t := mk { text : string; x : int; y : int; matched : int }.
Definition set_y (w : t) (v : int) : t := mk (text w) (x w) v (matched w).
Definition set_matched (w : t) (v : int) : t := mk (text w) (x w) (y w) v.
End Word.
Abbreviation word := Word.t.

Module Particle.
Record t := mk
  { x : float64; y : float64; vx : float64; vy : float64;
    char : rune; lifetime : int }.
End Particle.
Abbreviation particle := Particle.t.

Module Effect.
Record t := mk { particles : list particle }.
End Effect.
Abbreviation effect := Effect.t.

(** [time.Time], as a number of nanoseconds. *)
Definition Time := Z.

Module Model.
(** The field [effects] exists in [VariantB] only; [VariantA] never
    touches it. *)
#[projections(primitive)]
Record t := mk
  { words : list word;
    effects : list effect;
    score : int;
    level : int;
    lives : int;
    wordsTyped : int;
    dict : list string;
    current : option nat;
    input : string;
    gameOver : bool;
    paused : bool;
    startTime : Time;
    width : int;
    height : int }.

Definition set_words (m : t) (v : list word) : t :=
  mk v (effects m) (score m) (level m) (lives m) (wordsTyped m) (dict m)
     (current m) (input m) (gameOver m) (paused m) (startTime m) (width m) (height m).
Definition set_effects (m : t) (v : list effect) : t :=
  mk (words m) v (score m) (level m) (lives m) (wordsTyped m) (dict m)
     (current m) (input m) (gameOver m) (paused m) (startTime m) (width m) (height m).
Definition set_score (m : t) (v : int) : t :=
  mk (words m) (effects m) v (level m) (lives m) (wordsTyped m) (dict m)
     (current m) (input m) (gameOver m) (paused m) (startTime m) (width m) (height m).
Definition set_level (m : t) (v : int) : t :=
  mk (words m) (effects m) (score m) v (lives m) (wordsTyped m) (dict m)
     (current m) (input m) (gameOver m) (paused m) (startTime m) (width m) (height m).
Definition set_lives (m : t) (v : int) : t :=
  mk (words m) (effects m) (score m) (level m) v (wordsTyped m) (dict m)
     (current m) (input m) (gameOver m) (paused m) (startTime m) (width m) (height m).
Definition set_wordsTyped (m : t) (v : int) : t :=
  mk (words m) (effects m) (score m) (level m) (lives m) v (dict m)
     (current m) (input m) (gameOver m) (paused m) (startTime m) (width m) (height m).
Definition set_current (m : t) (v : option nat) : t :=
  mk (words m) (effects m) (score m) (level m) (lives m) (wordsTyped m) (dict m)
     v (input m) (gameOver m) (paused m) (startTime m) (width m) (height m).
Definition set_input (m : t) (v : string) : t :=
  mk (words m) (effects m) (score m) (level m) (lives m) (wordsTyped m) (dict m)
     (current m) v (gameOver m) (paused m) (startTime m) (width m) (height m).
Definition set_gameOver (m : t) (v : bool) : t :=
  mk (words m) (effects m) (score m) (level m) (lives m) (wordsTyped m) (dict m)
     (current m) (input m) v (paused m) (startTime m) (width m) (height m).
Definition set_paused (m : t) (v : bool) : t :=
  mk (words m) (effects m) (score m) (level m) (lives m) (wordsTyped m) (dict m)
     (current m) (input m) (gameOver m) v (startTime m) (width m) (height m).
Definition set_size (m : t) (w h : int) : t :=
  mk (words m) (effects m) (score m) (level m) (lives m) (wordsTyped m) (dict m)
     (current m) (input m) (gameOver m) (paused m) (startTime m) w h.
End Model.
Abbreviation model := Model.t.

(** The messages of the event loop; a [tea.KeyMsg] is its [String()]. *)
Inductive Msg :=
| KeyMsg (key : string)
| tickMsg
| WindowSizeMsg (Width Height : int)
| otherMsg.

(** The commands [Update] returns. *)
Inductive Cmd := Quit | ClearScreen | tickCmd | nilCmd.

(** ** Loading the dictionary *)

(** What [os.Open] and the [bufio.Scanner] over the file give: a failure to
    open, or the lines [scanner.Text()] yields in turn, followed by
    [scanner.Err()]. *)
Definition error := string.

Inductive resource :=
| Unopenable (err : error)
| File (lines : list string) (scanErr : option error).

(** The length test on a trimmed line: [len(word) > 0] in [VariantA],
    [len(word) >= 1 && len(word) <= 12] in [VariantB]. *)
Definition accepted (v : variant) (word : string) : bool :=
  match v with
  | VariantA => 0 <? len word
  | VariantB => (1 <=? len word) && (len word <=? 12)
  end.

Section Loading.

Context {SL : StringsLib}.

(** The body of the [for scanner.Scan()] loop. *)
Definition scanLine (v : variant) (words : list string) (line : string) : list string :=
  let word := TrimSpace line in
  if accepted v word then words ++ [ToLower word] else words.

Definition loadDictionary (v : variant) (r : resource) : list string * option error :=
  match r with
  | Unopenable err => ([], Some err)
  | File lines scanErr => (fold_left (scanLine v) lines [], scanErr)
  end.

(** ** The game *)

Definition initialModel (dict : list string) (now : Time) : model :=
  {| Model.words := [];
     Model.effects := [];
     Model.score := 0;
     Model.level := 1;
     Model.lives := 3;
     Model.wordsTyped := 0;
     Model.dict := dict;
     Model.current := None;
     Model.input := EmptyString;
     Model.gameOver := false;
     Model.paused := false;
     Model.startTime := now;
     Model.width := screenWidth;
     Model.height := screenHeight |}.

(** [main], up to the start of the event loop: [None] is [os.Exit(1)]. *)
Definition start (v : variant) (r : resource) (now : Time) : option model :=
  match loadDictionary v r with
  | (_, Some _) => None
  | (dict, None) =>
      if len_slice dict =? 0 then None else Some (initialModel dict now)
  end.

End Loading.

Section Game.

Context {ML : MathLib} {SL : StringsLib}.

Definition chars : list rune :=
  ["*"; "+"; "#"; "o"; "."; "~"; "^"; "x"]%char.

(** The direction of particle [i] out of [numParticles]. *)
Definition angle (i numParticles : int) : float64 :=
  fdiv (fmul (fmul (float64_of_int i) (decimal 2 1)) (decimal 314159 100000))
    (float64_of_int numParticles).

(** One round of the loop of [createExplosion]. *)
Definition createParticle (x y wordLen numParticles i : int) : M particle :=
  u <- Float64 ;;
  let speed := fadd (decimal 5 10) (fmul u (decimal 15 10)) in
  if wordLen =? 0 then panic else
  c <- Intn (len_slice chars) ;;
  ch <- index chars (Z.to_nat c) ;;
  l <- Intn 3 ;;
  ret {| Particle.x := fadd (float64_of_int x) (float64_of_int (Z.rem i wordLen));
         Particle.y := float64_of_int y;
         Particle.vx := fmul speed (Cos (angle i numParticles));
         Particle.vy := fmul speed (Sin (angle i numParticles));
         Particle.char := ch;
         Particle.lifetime := add 3 l |}.

(** [for i := 0; i < numParticles; i++], with [n] rounds left. *)
Fixpoint createExplosion_loop (n : nat) (x y wordLen numParticles i : int)
    (particles : list particle) : M (list particle) :=
  match n with
  | O => ret particles
  | S n' =>
      p <- createParticle x y wordLen numParticles i ;;
      createExplosion_loop n' x y wordLen numParticles (add i 1) (particles ++ [p])
  end.

Definition createExplosion (x y wordLen : int) : M effect :=
  let numParticles := add 8 (mul wordLen 2) in
  particles <- createExplosion_loop (Z.to_nat numParticles) x y wordLen numParticles 0 [] ;;
  ret (Effect.mk particles).

(** The word is complete: the body of [if m.input == w.text]. *)
Definition hit (v : variant) (i : nat) (w : word) (m : model) : M model :=
  let m := Model.set_score m
             (add (Model.score m) (mul (len (Word.text w)) (add (Model.level m) 1))) in
  let m := Model.set_wordsTyped m (add (Model.wordsTyped m) 1) in
  m <- match v with
       | VariantA => ret m
       | VariantB =>
           e <- createExplosion (Word.x w) (Word.y w) (len (Word.text w)) ;;
           ret (Model.set_effects m (Model.effects m ++ [e]))
       end ;;
  let m := Model.set_words m (delete i (Model.words m)) in
  let m := Model.set_input m EmptyString in
  let m := Model.set_current m None in
  ret (if Z.rem (Model.wordsTyped m) 15 =? 0
       then Model.set_level m (add (Model.level m) 1)
       else m).

(** [for i := range m.words], from index [i], with [n] rounds left. *)
Fixpoint matchWord_loop (v : variant) (n i : nat) (m : model) : M model :=
  match n with
  | O =>
      ret (Model.set_current (Model.set_input m EmptyString) None)
  | S n' =>
      w <- index (Model.words m) i ;;
      if HasPrefix (Word.text w) (Model.input m) then
        let m := Model.set_current m (Some i) in
        let w := Word.set_matched w (len (Model.input m)) in
        let m := Model.set_words m (<[i := w]> (Model.words m)) in
        if String.eqb (Model.input m) (Word.text w)
        then hit v i w m
        else ret m
      else matchWord_loop v n' (S i) m
  end.

Definition matchWord (v : variant) (m : model) : M model :=
  if len (Model.input m) =? 0
  then ret (Model.set_current m None)
  else matchWord_loop v (length (Model.words m)) 0 m.

(** The body of the loop of [moveWords], at index [i]. *)
Definition moveWord (i : nat) (m : model) : M model :=
  w <- index (Model.words m) i ;;
  let w := Word.set_y w (add (Word.y w) 1) in
  let m := Model.set_words m (<[i := w]> (Model.words m)) in
  if gameHeight <=? Word.y w then
    let m := Model.set_words m (delete i (Model.words m)) in
    let m := Model.set_lives m (sub (Model.lives m) 1) in
    ret (if Model.lives m <=? 0 then Model.set_gameOver m true else m)
  else ret m.

(** [for i := len(m.words) - 1; i >= 0; i--], with [n = i + 1]. *)
Fixpoint moveWords_loop (n : nat) (m : model) : M model :=
  match n with
  | O => ret m
  | S i => m <- moveWord i m ;; moveWords_loop i m
  end.

Definition moveWords (m : model) : M model :=
  moveWords_loop (length (Model.words m)) m.

(** The body of the inner loop of [updateEffects], at index [j]. *)
Definition updateParticle (j : nat) (particles : list particle) : M (list particle) :=
  p <- index particles j ;;
  let p := {| Particle.x := fadd (Particle.x p) (Particle.vx p);
              Particle.y := fadd (Particle.y p) (Particle.vy p);
              Particle.vx := Particle.vx p;
              Particle.vy := Particle.vy p;
              Particle.char := Particle.char p;
              Particle.lifetime := sub (Particle.lifetime p) 1 |} in
  let particles := <[j := p]> particles in
  ret (if Particle.lifetime p <=? 0 then delete j particles else particles).

Fixpoint updateParticles_loop (n : nat) (particles : list particle) : M (list particle) :=
  match n with
  | O => ret particles
  | S j => ps <- updateParticle j particles ;; updateParticles_loop j ps
  end.

(** The body of the outer loop of [updateEffects], at index [i]. *)
Definition updateEffect (i : nat) (effects : list effect) : M (list effect) :=
  e <- index effects i ;;
  ps <- updateParticles_loop (length (Effect.particles e)) (Effect.particles e) ;;
  let effects := <[i := Effect.mk ps]> effects in
  ret (if len_slice ps =? 0 then delete i effects else effects).

Fixpoint updateEffects_loop (n : nat) (effects : list effect) : M (list effect) :=
  match n with
  | O => ret effects
  | S i => es <- updateEffect i effects ;; updateEffects_loop i es
  end.

Definition updateEffects (m : model) : M model :=
  es <- updateEffects_loop (length (Model.effects m)) (Model.effects m) ;;
  ret (Model.set_effects m es).

(** The limit on the number of falling words. *)
Definition cap (v : variant) : int :=
  match v with VariantA => 10 | VariantB => 8 end.

(** The chance of a spawn: [0.15+float64(m.level)*0.02] in [VariantA],
    [0.08+float64(m.level)*0.01] in [VariantB]. *)
Definition spawnChance (v : variant) (level : int) : float64 :=
  match v with
  | VariantA => fadd (decimal 15 100) (fmul (float64_of_int level) (decimal 2 100))
  | VariantB => fadd (decimal 8 100) (fmul (float64_of_int level) (decimal 1 100))
  end.

Definition minWords (level : int) : int := add 1 (Z.quot level 3).

(** The spawn decision. [VariantB] draws only when the minimum is met
    (the [||] of Go does not evaluate its right side otherwise). *)
Definition shouldSpawn (v : variant) (m : model) : M bool :=
  match v with
  | VariantA =>
      u <- Float64 ;; ret (flt u (spawnChance VariantA (Model.level m)))
  | VariantB =>
      if len_slice (Model.words m) <? minWords (Model.level m) then ret true
      else u <- Float64 ;; ret (flt u (spawnChance VariantB (Model.level m)))
  end.

(** The body of [if shouldSpawn]. *)
Definition spawn (m : model) : M model :=
  k <- Intn (len_slice (Model.dict m)) ;;
  newWord <- index (Model.dict m) (Z.to_nat k) ;;
  let maxX := sub (sub screenWidth (len newWord)) 1 in
  let maxX := if maxX <? 0 then 0 else maxX in
  x <- Intn (add maxX 1) ;;
  ret (Model.set_words m
         (Model.words m ++
            [{| Word.text := newWord; Word.x := x; Word.y := 0; Word.matched := 0 |}])).

Definition maybeAddWord (v : variant) (m : model) : M model :=
  if cap v <=? len_slice (Model.words m) then ret m
  else
    b <- shouldSpawn v m ;;
    if b then spawn m else ret m.

(** [m.input[:len(m.input)-1]]. *)
Fixpoint dropLast (s : string) : string :=
  match s with
  | EmptyString => EmptyString
  | String c EmptyString => EmptyString
  | String c s' => String c (dropLast s')
  end.

(** [len(s) == 1 && s >= "a" && s <= "z"]. *)
Definition isLetter (key : string) : bool :=
  match key with
  | String c EmptyString =>
      let n := nat_of_ascii c in (97 <=? n)%nat && (n <=? 122)%nat
  | _ => false
  end.

(** The keys that quit while the game runs. *)
Definition quitKey (v : variant) (key : string) : bool :=
  match v with
  | VariantA => String.eqb key "ctrl+c" || String.eqb key "q"
  | VariantB => String.eqb key "ctrl+c"
  end.

Definition pauseKey (v : variant) (key : string) : bool :=
  match v with
  | VariantA => String.eqb key "ctrl+p"
  | VariantB => String.eqb key " "
  end.

(** [case tea.KeyMsg]. *)
Definition updateKey (v : variant) (m : model) (key : string) : M (model * Cmd) :=
  if Model.gameOver m then
    if String.eqb key "q" || String.eqb key "ctrl+c"
    then ret (m, Quit)
    else ret (m, nilCmd)
  else if quitKey v key then ret (m, Quit)
  else if String.eqb key "ctrl+l" then ret (m, ClearScreen)
  else if pauseKey v key then
    ret (Model.set_paused m (negb (Model.paused m)), nilCmd)
  else if String.eqb key "backspace" then
    let m := if 0 <? len (Model.input m)
             then Model.set_input m (dropLast (Model.input m))
             else m in
    ret (Model.set_current m None, nilCmd)
  else if isLetter key then
    let m := Model.set_input m (String.append (Model.input m) key) in
    m <- matchWord v m ;;
    ret (m, nilCmd)
  else ret (m, nilCmd).

(** [case tickMsg]. *)
Definition updateTick (v : variant) (m : model) : M (model * Cmd) :=
  if negb (Model.paused m) && negb (Model.gameOver m) then
    m <- moveWords m ;;
    m <- match v with
         | VariantA => ret m
         | VariantB => updateEffects m
         end ;;
    m <- maybeAddWord v m ;;
    ret (m, tickCmd)
  else ret (m, tickCmd).

Definition Update (v : variant) (m : model) (msg : Msg) : M (model * Cmd) :=
  match msg with
  | KeyMsg key => updateKey v m key
  | tickMsg => updateTick v m
  | WindowSizeMsg w h => ret (Model.set_size m w h, nilCmd)
  | otherMsg => ret (m, nilCmd)
  end.

(** A run of the event loop: the messages, applied in turn. *)
Fixpoint run (v : variant) (msgs : list Msg) (m : model) : M model :=
  match msgs with
  | [] => ret m
  | msg :: msgs' => r <- Update v m msg ;; run v msgs' (fst r)
  end.

End Game.

(** ** The vocabulary of the specification *)

Section Vocabulary.

Context {ML : MathLib} {SL : StringsLib}.

(** A word one row further down. *)
Definition descend (w : word) : word := Word.set_y w (add (Word.y w) 1).

(** A life is lost: [m.lives--; if m.lives <= 0 { m.gameOver = true }]. *)
Definition loseLife (m : model) : model :=
  let m := Model.set_lives m (sub (Model.lives m) 1) in
  if Model.lives m <=? 0 then Model.set_gameOver m true else m.

Definition onScreen (w : word) : Prop := Word.y w < gameHeight.
Definition fallen (w : word) : Prop := gameHeight <= Word.y w.

#[global] Instance onScreen_dec w : Decision (onScreen w).
Proof. unfold onScreen. apply _. Defined.

#[global] Instance fallen_dec w : Decision (fallen w).
Proof. unfold fallen. apply _. Defined.

(** The generator after [n] draws. *)
Definition after (n : nat) (g : rng) : rng := Nat.iter n advance g.

(** Particle [i] of an explosion of [numParticles] particles at [(x, y)],
    for a word of [wordLen] letters, drawn from [g]. Three values are drawn
    for it, after the three of each particle before it: [u] for the speed,
    [c] for the glyph and [l] for the lifetime. Nothing is drawn for its
    direction, [angle i numParticles]. *)
Definition particleOf (x y wordLen numParticles : int) (g : rng) (i : nat)
    (p : particle) : Prop :=
  exists (u : float64) (c l : int) (ch : rune),
    Float64 (after (3 * i) g) = Some (u, after (3 * i + 1) g)
    /\ Intn (len_slice chars) (after (3 * i + 1) g) = Some (c, after (3 * i + 2) g)
    /\ chars !! Z.to_nat c = Some ch
    /\ Intn 3 (after (3 * i + 2) g) = Some (l, after (3 * i + 3) g)
    /\ 0 <= l < 3
    /\ p = {| Particle.x :=
                fadd (float64_of_int x) (float64_of_int (Z.rem (Z.of_nat i) wordLen));
              Particle.y := float64_of_int y;
              Particle.vx :=
                fmul (fadd (decimal 5 10) (fmul u (decimal 15 10)))
                  (Cos (angle (Z.of_nat i) numParticles));
              Particle.vy :=
                fmul (fadd (decimal 5 10) (fmul u (decimal 15 10)))
                  (Sin (angle (Z.of_nat i) numParticles));
              Particle.char := ch;
              Particle.lifetime := 3 + l |}.

(** The word starts with the input. *)
Definition startsWith (input : string) (w : word) : Prop :=
  HasPrefix (Word.text w) input = true.

#[global] Instance startsWith_dec input w : Decision (startsWith input w).
Proof. unfold startsWith. apply _. Defined.

(** A MISS: [m.input = ""; m.current = nil]. *)
Definition miss (m : model) : model :=
  Model.set_current (Model.set_input m EmptyString) None.

(** Word [w], at index [i], becomes the current word:
    [m.current = w; w.matched = len(m.input)]. *)
Definition track (i : nat) (w : word) (m : model) : model :=
  Model.set_words (Model.set_current m (Some i))
    (<[i := Word.set_matched w (len (Model.input m))]> (Model.words m)).

(** The state after a HIT on word [w], at index [i], apart from the
    explosion of [VariantB]. *)
Definition scored (i : nat) (w : word) (m : model) : model :=
  let m := Model.set_score m
             (add (Model.score m) (mul (len (Word.text w)) (add (Model.level m) 1))) in
  let m := Model.set_wordsTyped m (add (Model.wordsTyped m) 1) in
  let m := Model.set_words m (delete i (Model.words m)) in
  let m := Model.set_input m EmptyString in
  let m := Model.set_current m None in
  if Z.rem (Model.wordsTyped m) 15 =? 0
  then Model.set_level m (add (Model.level m) 1)
  else m.

(** What no keystroke changes in a word. *)
Definition shape (w : word) : string * int * int :=
  (Word.text w, Word.x w, Word.y w).

(** The text and the column of a word: what no operation changes. *)
Definition column (w : word) : string * int := (Word.text w, Word.x w).

(** The rightmost column a word may be spawned at: [maxX]. *)
Definition maxColumn (text : string) : int :=
  Z.max 0 (screenWidth - len text - 1).

(** The lines a [bufio.Scanner] yields are at most [bufio.MaxScanTokenSize]
    bytes long. *)
Definition MaxScanTokenSize : int := 65536.

Definition scannable (r : resource) : Prop :=
  match r with
  | Unopenable _ => True
  | File lines _ => Forall (fun line => len line <= MaxScanTokenSize) lines
  end.

(** The most bytes an entry of the dictionary has: [UTFMax] for each byte
    of the trimmed line it is the lower case of, a line of the scanner in
    [VariantA], one of 12 bytes at most in [VariantB]. *)
Definition maxEntry (v : variant) : int :=
  match v with
  | VariantA => UTFMax * MaxScanTokenSize
  | VariantB => UTFMax * 12
  end.

(** The dictionaries the game starts with. *)
Definition playable (v : variant) (dict : list string) : Prop :=
  dict <> [] /\ Forall (fun s => len s <= maxEntry v) dict.

(** A word that is falling: on the screen, taken from the dictionary, at
    a column it may have been spawned at. *)
Definition placed (dict : list string) (w : word) : Prop :=
  0 <= Word.y w < gameHeight
  /\ Word.text w ∈ dict
  /\ 0 <= Word.x w <= maxColumn (Word.text w).

(** The word [spawn] adds. *)
Definition spawned (dict : list string) (w : word) : Prop :=
  Word.y w = 0 /\ Word.matched w = 0 /\ Word.text w ∈ dict
  /\ 0 <= Word.x w <= maxColumn (Word.text w).

(** Word [a] is lower on the screen than word [b]. *)
Definition below (a b : word) : Prop := Word.y b < Word.y a.

(** The invariant of the game: three lives at most and none below zero,
    game over exactly when no life is left, and the falling words in the
    order they were spawned, each in a row of its own. *)
Record Inv (v : variant) (m : model) : Prop := mkInv
  { inv_dict : playable v (Model.dict m);
    inv_lives : 0 <= Model.lives m <= 3;
    inv_gameOver : Model.gameOver m = (Model.lives m <=? 0);
    inv_placed : Forall (placed (Model.dict m)) (Model.words m);
    inv_order : StronglySorted below (Model.words m) }.

(** The states the program can be in: [start] on a dictionary file, then any
    number of [Update], whatever the messages and the random draws. *)
Inductive reachable (v : variant) : model -> Prop :=
| reachable_start r now m :
    scannable r -> start v r now = Some m -> reachable v m
| reachable_Update m msg g m' c g' :
    reachable v m -> Update v m msg g = Some (m', c, g') -> reachable v m'.

End Vocabulary.

(** An oracle that hands out the values of [draws], then zeros. *)
Definition oracle (draws : list N) : rng := fun k => nth k draws 0%N.

(** A stand-in for the math library, for the examples that run the game:
    the first terms of the power series of the cosine and of the sine. *)
Definition seriesMath : MathLib :=
  {| Cos := fun a =>
       fadd (fsub (decimal 1 1) (fdiv (fmul a a) (decimal 2 1)))
         (fdiv (fmul (fmul (fmul a a) a) a) (decimal 24 1));
     Sin := fun a => fsub a (fdiv (fmul (fmul a a) a) (decimal 6 1)) |}.

(** A stand-in for package [strings], for the examples that load a
    dictionary: what the package does to ASCII text. *)
Definition asciiStrings : StringsLib.
Proof.
  refine {| TrimSpace := asciiTrimSpace; ToLower := asciiToLower |}.
  - intros s. unfold asciiTrimSpace, len.
    assert (Hl : forall t, (String.length (trimLeft t) <= String.length t)%nat).
    { induction t as [|c t IH]; simpl; [lia|]. destruct (isSpace c); simpl; lia. }
    assert (Hr : forall t, (String.length (trimRight t) <= String.length t)%nat).
    { induction t as [|c t IH]; simpl; [lia|].
      destruct (trimRight t); [destruct (isSpace c)|]; simpl in *; lia. }
    specialize (Hl s). specialize (Hr (trimLeft s)). lia.
  - intros s. unfold len, UTFMax.
    assert (H : String.length (asciiToLower s) = String.length s)
      by (induction s as [|c s IH]; simpl; congruence).
    lia.
Defined.

(** ** Example games *)

(** The draw of [rand.Float64()] that is one half. *)
Definition half : N := 4503599627370496%N.

(** A game that runs, at level 1, with no point scored yet. *)
Definition playing (dict : list string) (words : list word) (lives : int)
    (input : string) (current : option nat) : model :=
  {| Model.words := words;
     Model.effects := [];
     Model.score := 0;
     Model.level := 1;
     Model.lives := lives;
     Model.wordsTyped := 0;
     Model.dict := dict;
     Model.current := current;
     Model.input := input;
     Model.gameOver := false;
     Model.paused := false;
     Model.startTime := 0;
     Model.width := screenWidth;
     Model.height := screenHeight |}.

Definition catFile : resource := File ["cat"%string] None.
Definition catsFile : resource := File ["cats"%string; "cat"%string] None.

(** The word [cat] at column [x], row [y], with [matched] letters typed. *)
Definition cat (x y matched : int) : word :=
  {| Word.text := "cat"; Word.x := x; Word.y := y; Word.matched := matched |}.

Definition cats (x y matched : int) : word :=
  {| Word.text := "cats"; Word.x := x; Word.y := y; Word.matched := matched |}.

(** [cats] was spawned before [cat]; [c] and [a] were typed. *)
Definition shadowed : model :=
  playing ["cats"%string; "cat"%string] [cats 5 1 2; cat 7 0 0] 3 "ca" (Some 0%nat).

(** [shadowed] after the letter [t]. *)
Definition shadowedAfter : model :=
  playing ["cats"%string; "cat"%string] [cats 5 1 3; cat 7 0 0] 3 "cat" (Some 0%nat).

(** One word, [cat]; [c] and [a] were typed. *)
Definition typing : model :=
  playing ["cat"%string] [cat 7 0 2] 3 "ca" (Some 0%nat).

(** One word, [cat]; [c] was typed. *)
Definition started : model :=
  playing ["cat"%string] [cat 7 0 1] 3 "c" (Some 0%nat).

(** [started] after the letter [x]. *)
Definition startedAfter : model :=
  playing ["cat"%string] [cat 7 0 1] 3 "" None.

(** One life left, and one word in the last row of the screen. *)
Definition lastLife : model :=
  playing ["cat"%string] [cat 12 20 0] 1 "" None.

(** The draws of the game that leads to [lastLife]: a word is spawned, then
    twenty ticks spawn nothing, three times over. *)
Definition lastLifeDraws : list N :=
  ([0; 7] ++ replicate 20 half ++ [0; 30] ++ replicate 20 half
   ++ [0; 12] ++ replicate 20 half)%N.

(** [lastLife] after a tick. *)
Definition lastLifeAfter : model :=
  Model.set_gameOver
    (Model.set_lives (playing ["cat"%string] [cat 40 0 0] 1 "" None) 0) true.

(** A word of 81 letters. *)
Definition wideWord : string :=
  "wwwwwwwwwwwwwwwwwwwwwwwwwwwwwwwwwwwwwwwwwwwwwwwwwwwwwwwwwwwwwwwwwwwwwwwwwwwwwwwww".

Definition wideFile : resource := File [wideWord] None.

(** The game on [wideFile] after a tick that spawns. *)
Definition wideAfter : model :=
  playing [wideWord]
    [{| Word.text := wideWord; Word.x := 0; Word.y := 0; Word.matched := 0 |}]
    3 "" None.


(** Other draws for an explosion of 14 particles: for each particle the
    speed draw one half, the third glyph and the second lifetime. *)
Definition otherDraws : list N := mjoin (replicate 14 [half; 2%N; 1%N]).




(** [typing] after the letter [t]: the word explodes. *)
Definition exploded : model :=
  match Update (ML := seriesMath) VariantB typing (KeyMsg "t") (oracle otherDraws) with
  | Some (m, _, _) => m
  | None => typing
  end.

(** The state an [Update] ends in, and its command. *)
Definition outcome (r : option (model * Cmd * rng)) : option (model * Cmd) :=
  fst <$> r.

(** ** The chance of a spawn, level by level *)






(** ** Effect decay, in words of lists *)

(** A particle one tick later: [p.x += p.vx; p.y += p.vy; p.lifetime--]. *)
Definition age (p : particle) : particle :=
  {| Particle.x := fadd (Particle.x p) (Particle.vx p);
     Particle.y := fadd (Particle.y p) (Particle.vy p);
     Particle.vx := Particle.vx p;
     Particle.vy := Particle.vy p;
     Particle.char := Particle.char p;
     Particle.lifetime := sub (Particle.lifetime p) 1 |}.

(** The particle is not removed: not [p.lifetime <= 0]. *)
Definition alive (p : particle) : Prop := 0 < Particle.lifetime p.

#[global] Instance alive_dec p : Decision (alive p).
Proof. unfold alive. apply _. Defined.

(** An effect one tick later. *)
Definition decay (e : effect) : effect :=
  Effect.mk (filter alive (age <$> Effect.particles e)).

(** The effect is not removed: not [len(effect.particles) == 0]. *)
Definition lasting (e : effect) : Prop := len_slice (Effect.particles e) <> 0.

#[global] Instance lasting_dec e : Decision (lasting e).
Proof. unfold lasting. apply _. Defined.

(** The effects after the tick of a game that runs: [VariantA] has none to
    update. *)
Definition decayed (v : variant) (effects : list effect) : list effect :=
  match v with
  | VariantA => effects
  | VariantB => filter lasting (decay <$> effects)
  end.

(** ** The cases of a keystroke *)

Section Cases.

Context {ML : MathLib} {SL : StringsLib}.

(** What a keystroke does, case by case. *)
Inductive keyCase (v : variant) (m : model) (key : string) (g : rng) :
    model -> Cmd -> rng -> Prop :=
| key_over :
    Model.gameOver m = true ->
    keyCase v m key g m
      (if String.eqb key "q" || String.eqb key "ctrl+c" then Quit else nilCmd) g
| key_quit :
    Model.gameOver m = false -> quitKey v key = true ->
    keyCase v m key g m Quit g
| key_redraw :
    Model.gameOver m = false -> quitKey v key = false -> key = "ctrl+l"%string ->
    keyCase v m key g m ClearScreen g
| key_pause :
    Model.gameOver m = false -> quitKey v key = false -> pauseKey v key = true ->
    keyCase v m key g (Model.set_paused m (negb (Model.paused m))) nilCmd g
| key_backspace :
    Model.gameOver m = false -> key = "backspace"%string ->
    keyCase v m key g
      (Model.set_current (Model.set_input m (dropLast (Model.input m))) None) nilCmd g
| key_ignored :
    Model.gameOver m = false -> quitKey v key = false -> isLetter key = false ->
    keyCase v m key g m nilCmd g
| key_miss :
    Model.gameOver m = false -> quitKey v key = false -> isLetter key = true ->
    list_find (startsWith (String.append (Model.input m) key)) (Model.words m) = None ->
    keyCase v m key g (miss m) nilCmd g
| key_track i w :
    Model.gameOver m = false -> quitKey v key = false -> isLetter key = true ->
    list_find (startsWith (String.append (Model.input m) key)) (Model.words m)
    = Some (i, w) ->
    Word.text w <> String.append (Model.input m) key ->
    keyCase v m key g
      (track i w (Model.set_input m (String.append (Model.input m) key))) nilCmd g
| key_hit i w es g' :
    Model.gameOver m = false -> quitKey v key = false -> isLetter key = true ->
    list_find (startsWith (String.append (Model.input m) key)) (Model.words m)
    = Some (i, w) ->
    Word.text w = String.append (Model.input m) key ->
    match v with
    | VariantA => es = [] /\ g' = g
    | VariantB =>
        exists e, es = [e]
                  /\ createExplosion (Word.x w) (Word.y w) (len (Word.text w)) g
                     = Some (e, g')
    end ->
    keyCase v m key g
      (Model.set_effects (scored i w m) (Model.effects m ++ es)) nilCmd g'.

End Cases.

(** ** The tick of a game that runs *)

(** The state after the tick of a game that runs, [new] being what the
    spawn decision adds: the words go down, a life is lost for each word
    that leaves the screen, the effects decay. *)
Definition ticked (v : variant) (m : model) (new : list word) : model :=
  Model.set_words
    (Model.set_effects
       (Nat.iter (length (filter fallen (descend <$> Model.words m))) loseLife m)
       (decayed v (Model.effects m)))
    (filter onScreen (descend <$> Model.words m) ++ new).

(** ** More invariants of the game *)

(** A particle on its way: a glyph of [chars], one to five ticks to live. *)
Definition flying (p : particle) : Prop :=
  1 <= Particle.lifetime p <= 5 /\ Particle.char p ∈ chars.

(** An explosion on its way: some particles, [8 + 2 * maxEntry VariantB]
    at most, all flying. *)
Definition exploding (e : effect) : Prop :=
  1 <= len_slice (Effect.particles e) <= 104
  /\ Forall flying (Effect.particles e).

(** No particle has more than [k] ticks to live. *)
Definition fading (k : Z) (es : list effect) : Prop :=
  Forall (fun e => Forall (fun p => Particle.lifetime p <= k) (Effect.particles e)) es.

(** The letters of a word typed so far are letters of the word. *)
Definition typed (w : word) : Prop := 0 <= Word.matched w <= len (Word.text w).

(** What holds of the words, the effects and the input besides [Inv]. *)
Record Tidy (v : variant) (m : model) : Prop := mkTidy
  { tidy_cap : len_slice (Model.words m) <= cap v;
    tidy_typed : Forall typed (Model.words m);
    tidy_effects : match v with
                   | VariantA => Model.effects m = []
                   | VariantB => Forall exploding (Model.effects m)
                   end;
    tidy_input : exists s, s ∈ Model.dict m /\ HasPrefix s (Model.input m) = true }.

(** The counters after at most [n] messages. *)
Record Counted (n : Z) (m : model) : Prop := mkCounted
  { counted_wordsTyped : 0 <= Model.wordsTyped m <= n;
    counted_level : Model.level m = 1 + Model.wordsTyped m / 15;
    counted_score :
      2 * Model.wordsTyped m <= Model.score m
         <= maxEntry VariantA * Model.wordsTyped m * (Model.level m + 1) }.

Arguments wrap : simpl never.
Arguments add : simpl never.
Arguments sub : simpl never.
Arguments mul : simpl never.
Arguments fadd : simpl never.
Arguments fsub : simpl never.
Arguments fmul : simpl never.
Arguments fdiv : simpl never.
Arguments float64_of_int : simpl never.
Arguments decimal : simpl never.

(** ** Facts about the runtime *)

Lemma gameHeight_eq : gameHeight = 21.
Proof. reflexivity. Qed.

Lemma wrap_small z : minInt <= z <= maxInt -> wrap z = z.
Proof.
  unfold minInt, maxInt, wrap. intros Hz.
  rewrite Z.mod_small by lia. lia.
Qed.

Lemma add_small a b : minInt <= a + b <= maxInt -> add a b = a + b.
Proof. apply wrap_small. Qed.

Lemma sub_small a b : minInt <= a - b <= maxInt -> sub a b = a - b.
Proof. apply wrap_small. Qed.

Lemma mul_small a b : minInt <= a * b <= maxInt -> mul a b = a * b.
Proof. apply wrap_small. Qed.

Lemma minInt_eq : minInt = -9223372036854775808.
Proof. reflexivity. Qed.

Lemma maxInt_eq : maxInt = 9223372036854775807.
Proof. reflexivity. Qed.

Lemma len_nonneg s : 0 <= len s.
Proof. unfold len. lia. Qed.

Lemma index_Some {A} (s : list A) i a g :
  s !! i = Some a -> index s i g = Some (a, g).
Proof. unfold index. intros ->. reflexivity. Qed.

Lemma bind_Some {A B} (c : M A) (k : A -> M B) g a g1 :
  c g = Some (a, g1) -> bind c k g = k a g1.
Proof. unfold bind. intros ->. reflexivity. Qed.

(** Reduction of the projections of a record that was just updated. *)
Ltac record_simpl :=
  cbn [Model.words Model.effects Model.score Model.level Model.lives
       Model.wordsTyped Model.dict Model.current Model.input Model.gameOver
       Model.paused Model.startTime Model.width Model.height
       Model.set_words Model.set_effects Model.set_score Model.set_level
       Model.set_lives Model.set_wordsTyped Model.set_current Model.set_input
       Model.set_gameOver Model.set_paused Model.set_size
       Word.text Word.x Word.y Word.matched Word.set_y Word.set_matched
       Effect.particles] in *.

(** ** The order of [float64] *)










(** ** Descent: [moveWords] *)

Section Descent.

Context {ML : MathLib} {SL : StringsLib}.

Lemma loseLife_set_words m ws :
  loseLife (Model.set_words m ws) = Model.set_words (loseLife m) ws.
Proof. unfold loseLife. simpl. destruct (_ <=? 0); reflexivity. Qed.

(** One round of the loop at the last unprocessed word. *)
Lemma moveWord_middle pre w post m g :
  Model.words m = pre ++ w :: post ->
  moveWord (length pre) m g =
    Some (if decide (fallen (descend w))
          then loseLife (Model.set_words m (pre ++ post))
          else Model.set_words m (pre ++ descend w :: post), g).
Proof.
  intros Hws. unfold moveWord.
  rewrite (bind_Some _ _ _ w g).
  2:{ apply index_Some. rewrite Hws. apply list_lookup_middle. reflexivity. }
  fold (descend w). cbv zeta. rewrite Hws.
  replace (<[length pre:=descend w]> (pre ++ w :: post))
    with (pre ++ descend w :: post).
  2:{ rewrite insert_app_r_alt by lia. rewrite Nat.sub_diag. reflexivity. }
  record_simpl. rewrite delete_middle.
  destruct (decide (fallen (descend w))) as [Hf|Hf]; unfold fallen in Hf.
  - apply Z.leb_le in Hf. rewrite Hf. unfold ret, loseLife. record_simpl.
    destruct (_ <=? 0); reflexivity.
  - apply Z.leb_nle in Hf. rewrite Hf. reflexivity.
Qed.

(** The loop, run over the words [pre] still to process, the words [post]
    behind them being done: the words of [pre] that stay on screen are kept
    in order, and a life is lost for each other one. *)
Lemma moveWords_loop_spec pre : forall post m g,
  Model.words m = pre ++ post ->
  moveWords_loop (length pre) m g =
    Some (Nat.iter (length (filter fallen (descend <$> pre))) loseLife
            (Model.set_words m (filter onScreen (descend <$> pre) ++ post)), g).
Proof.
  induction pre as [|w pre IH] using rev_ind; intros post m g Hws.
  - simpl. unfold ret. simpl in Hws. rewrite <- Hws. destruct m; reflexivity.
  - rewrite length_app, Nat.add_1_r. simpl moveWords_loop.
    rewrite <- app_assoc in Hws. simpl in Hws.
    rewrite (bind_Some _ _ _ _ g (moveWord_middle pre w post m g Hws)).
    rewrite fmap_app, !filter_app. simpl.
    destruct (decide (fallen (descend w))) as [Hf|Hf].
    + rewrite (IH post) by (rewrite loseLife_set_words; reflexivity).
      rewrite filter_cons_True by exact Hf.
      rewrite filter_cons_False by (unfold onScreen, fallen in *; lia).
      rewrite !filter_nil, app_nil_r, length_app. simpl.
      rewrite Nat.add_1_r, Nat.iter_succ_r.
      rewrite !loseLife_set_words. reflexivity.
    + rewrite (IH (descend w :: post)) by reflexivity.
      rewrite filter_cons_False by exact Hf.
      rewrite filter_cons_True by (unfold onScreen, fallen in *; lia).
      rewrite !filter_nil, app_nil_r, <- app_assoc. reflexivity.
Qed.

Lemma moveWords_spec m g :
  moveWords m g =
    Some (Nat.iter (length (filter fallen (descend <$> Model.words m))) loseLife
            (Model.set_words m (filter onScreen (descend <$> Model.words m))), g).
Proof.
  unfold moveWords.
  rewrite (moveWords_loop_spec (Model.words m) [] m g) by (rewrite app_nil_r; reflexivity).
  rewrite app_nil_r. reflexivity.
Qed.

End Descent.

(** ** Explosions: [createExplosion] *)

Section Explosion.

Context {ML : MathLib} {SL : StringsLib}.

Lemma Intn_range n g :
  0 < n ->
  exists k, Intn n g = Some (k, advance g) /\ 0 <= k < n.
Proof.
  intros Hn. unfold Intn.
  destruct (n <=? 0) eqn:E; [lia|].
  eexists. split; [reflexivity|]. apply Z.mod_pos_bound. exact Hn.
Qed.

Lemma after_S n g : advance (after n g) = after (S n) g.
Proof. reflexivity. Qed.

(** One round of the loop, on the generator after the draws of the [i]
    particles before. *)
Lemma createParticle_spec x y wordLen numParticles g i :
  wordLen <> 0 ->
  exists p,
    createParticle x y wordLen numParticles (Z.of_nat i) (after (3 * i) g)
    = Some (p, after (3 * i + 3) g)
    /\ particleOf x y wordLen numParticles g i p.
Proof.
  intros Hw. unfold createParticle.
  replace (3 * i + 3)%nat with (S (S (S (3 * i)))) by lia.
  set (h := after (3 * i) g).
  assert (Hu : exists u, Float64 h = Some (u, advance h)) by (eexists; reflexivity).
  destruct Hu as (u & Hu).
  rewrite (bind_Some _ _ _ _ _ Hu). cbv zeta.
  destruct (wordLen =? 0) eqn:E; [lia|].
  destruct (Intn_range (len_slice chars) (advance h)) as (c & Hc & Hc8);
    [reflexivity|].
  rewrite (bind_Some _ _ _ _ _ Hc).
  destruct (lookup_lt_is_Some_2 chars (Z.to_nat c)) as [ch Hch].
  { unfold len_slice in Hc8. lia. }
  rewrite (bind_Some _ _ _ _ _ (index_Some _ _ _ _ Hch)).
  destruct (Intn_range 3 (advance (advance h))) as (l & Hl & Hl3); [lia|].
  rewrite (bind_Some _ _ _ _ _ Hl).
  unfold ret. eexists. split; [reflexivity|].
  exists u, c, l, ch.
  replace (3 * i + 1)%nat with (S (3 * i)) by lia.
  replace (3 * i + 2)%nat with (S (S (3 * i))) by lia.
  replace (3 * i + 3)%nat with (S (S (S (3 * i)))) by lia.
  repeat (split; [assumption|]).
  rewrite add_small by (rewrite minInt_eq, maxInt_eq; lia). reflexivity.
Qed.

Lemma createExplosion_loop_spec x y wordLen numParticles g n : forall i acc,
  wordLen <> 0 -> Z.of_nat i + Z.of_nat n <= maxInt ->
  exists ps,
    createExplosion_loop n x y wordLen numParticles (Z.of_nat i) acc (after (3 * i) g)
    = Some (acc ++ ps, after (3 * (i + n)) g)
    /\ length ps = n
    /\ forall (k : nat) p, ps !! k = Some p ->
         particleOf x y wordLen numParticles g (i + k) p.
Proof.
  induction n as [|n IH]; intros i acc Hw Hn.
  - exists []. cbn [createExplosion_loop]. unfold ret. rewrite app_nil_r.
    replace (i + 0)%nat with i by lia.
    split; [reflexivity|]. split; [reflexivity|]. intros k p Hk. discriminate.
  - cbn [createExplosion_loop].
    destruct (createParticle_spec x y wordLen numParticles g i Hw) as (p & Hp & Hok).
    rewrite (bind_Some _ _ _ _ _ Hp).
    assert (Hadd : add (Z.of_nat i) 1 = Z.of_nat (S i))
      by (rewrite add_small by (rewrite minInt_eq; lia); lia).
    rewrite Hadd.
    replace (3 * i + 3)%nat with (3 * S i)%nat by lia.
    destruct (IH (S i) (acc ++ [p]) Hw) as (ps & Hps & Hlen & Hall); [lia|].
    exists (p :: ps). rewrite Hps, <- app_assoc.
    replace (S i + n)%nat with (i + S n)%nat by lia.
    split; [reflexivity|]. split; [simpl; congruence|].
    intros [|k] q Hq; simpl in Hq.
    + inversion Hq; subst q. replace (i + 0)%nat with i by lia. exact Hok.
    + apply Hall in Hq.
      replace (i + S k)%nat with (S i + k)%nat by lia. exact Hq.
Qed.

Lemma createParticle_total x y wordLen numParticles i g :
  wordLen <> 0 ->
  exists p g', createParticle x y wordLen numParticles i g = Some (p, g').
Proof.
  intros Hw. unfold createParticle, Float64, bind. cbv zeta.
  destruct (wordLen =? 0) eqn:E; [lia|].
  destruct (Intn_range (len_slice chars) (advance g)) as (c & Hc & Hc8);
    [reflexivity|].
  rewrite Hc.
  destruct (lookup_lt_is_Some_2 chars (Z.to_nat c)) as [ch Hch].
  { unfold len_slice in Hc8. lia. }
  rewrite (index_Some _ _ _ _ Hch).
  destruct (Intn_range 3 (advance (advance g))) as (l & Hl & _); [lia|].
  rewrite Hl. unfold ret. eauto.
Qed.

Lemma createExplosion_loop_total x y wordLen numParticles n : forall i acc g,
  wordLen <> 0 ->
  exists ps g',
    createExplosion_loop n x y wordLen numParticles i acc g = Some (ps, g').
Proof.
  induction n as [|n IH]; intros i acc g Hw.
  - exists acc, g. reflexivity.
  - simpl createExplosion_loop.
    destruct (createParticle_total x y wordLen numParticles i g Hw)
      as (p & g1 & Hp).
    rewrite (bind_Some _ _ _ _ _ Hp). apply IH. exact Hw.
Qed.

(** No panic for a word of at least one letter. *)
Lemma createExplosion_total x y wordLen g :
  wordLen <> 0 -> exists e g', createExplosion x y wordLen g = Some (e, g').
Proof.
  intros Hw. unfold createExplosion.
  destruct (createExplosion_loop_total x y wordLen (add 8 (mul wordLen 2))
              (Z.to_nat (add 8 (mul wordLen 2))) 0 [] g Hw) as (ps & g' & Hps).
  rewrite (bind_Some _ _ _ _ _ Hps). unfold ret. eauto.
Qed.

End Explosion.

(** ** Matching: [matchWord] *)

Section Matching.

Context {ML : MathLib} {SL : StringsLib}.

(** The loop stops at the first word that starts with the input. *)
Lemma matchWord_loop_spec v rest : forall pre m g,
  Model.words m = pre ++ rest ->
  matchWord_loop v (length rest) (length pre) m g =
    match list_find (startsWith (Model.input m)) rest with
    | None => Some (miss m, g)
    | Some (j, w) =>
        let i := (length pre + j)%nat in
        if String.eqb (Model.input m) (Word.text w)
        then hit v i (Word.set_matched w (len (Model.input m))) (track i w m) g
        else Some (track i w m, g)
    end.
Proof.
  induction rest as [|w rest IH]; intros pre m g Hws.
  - reflexivity.
  - simpl matchWord_loop.
    rewrite (bind_Some _ _ _ w g).
    2:{ apply index_Some. rewrite Hws. apply list_lookup_middle. reflexivity. }
    cbn [list_find]. unfold startsWith at 1.
    destruct (decide (HasPrefix (Word.text w) (Model.input m) = true)) as [Hp|Hp].
    + rewrite Hp. cbv zeta. rewrite Nat.add_0_r. record_simpl. unfold track.
      destruct (String.eqb _ _); reflexivity.
    + apply not_true_is_false in Hp. rewrite Hp.
      replace (S (length pre)) with (length (pre ++ [w]))
        by (rewrite length_app; simpl; lia).
      rewrite (IH (pre ++ [w]) m g) by (rewrite <- app_assoc; exact Hws).
      destruct (list_find (startsWith (Model.input m)) rest) as [[j w']|];
        [|reflexivity].
      simpl. rewrite length_app. simpl.
      replace (length pre + 1 + j)%nat with (length pre + S j)%nat by lia.
      reflexivity.
Qed.

Lemma matchWord_spec v m g :
  Model.input m <> EmptyString ->
  matchWord v m g =
    match list_find (startsWith (Model.input m)) (Model.words m) with
    | None => Some (miss m, g)
    | Some (i, w) =>
        if String.eqb (Model.input m) (Word.text w)
        then hit v i (Word.set_matched w (len (Model.input m))) (track i w m) g
        else Some (track i w m, g)
    end.
Proof.
  intros Hin. unfold matchWord.
  destruct (len (Model.input m) =? 0) eqn:E.
  { apply Z.eqb_eq in E. unfold len in E.
    destruct (Model.input m); [congruence | simpl in E; lia]. }
  apply (matchWord_loop_spec v (Model.words m) [] m g). reflexivity.
Qed.

(** A HIT never panics on a word of at least one letter; it changes the
    state as [scored] says and, in [VariantB], adds one explosion. *)
Lemma hit_spec v i w m g :
  1 <= len (Word.text w) ->
  exists es g',
    hit v i w m g = Some (Model.set_effects (scored i w m) (Model.effects m ++ es), g')
    /\ match v with
       | VariantA => es = [] /\ g' = g
       | VariantB =>
           exists e, es = [e] /\
             createExplosion (Word.x w) (Word.y w) (len (Word.text w)) g = Some (e, g')
       end.
Proof.
  intros Hlen. unfold hit. destruct v.
  - exists [], g. split; [|auto]. unfold bind, ret. rewrite app_nil_r.
    unfold scored. record_simpl. destruct (_ =? 0); destruct m; reflexivity.
  - destruct (createExplosion_total (Word.x w) (Word.y w) (len (Word.text w)) g)
      as (e & g' & He); [lia|].
    exists [e], g'. split; [|eauto].
    rewrite (bind_Some _ _ _ _ _ (bind_Some _ _ _ _ _ He)).
    unfold ret at 1. unfold ret.
    unfold scored. record_simpl. destruct (_ =? 0); reflexivity.
Qed.

End Matching.

(** ** Keystrokes: [Update] on a [tea.KeyMsg] *)

Section Keys.

Context {ML : MathLib} {SL : StringsLib}.

Lemma isLetter_inv key :
  isLetter key = true ->
  exists c, key = String c EmptyString
            /\ (97 <= nat_of_ascii c <= 122)%nat.
Proof.
  destruct key as [|c [|c' key]]; intros H; try discriminate H.
  unfold isLetter in H. apply andb_true_iff in H as [H1 H2].
  apply Nat.leb_le in H1, H2. eauto.
Qed.

Lemma letter_not_named key name :
  isLetter key = true -> (1 < String.length name)%nat ->
  String.eqb key name = false.
Proof.
  intros Hk Hn. apply isLetter_inv in Hk as (c & -> & _).
  apply String.eqb_neq. intros <-. simpl in Hn. lia.
Qed.

Lemma letter_not_space key :
  isLetter key = true -> String.eqb key " " = false.
Proof.
  intros Hk. apply isLetter_inv in Hk as (c & -> & Hc).
  apply String.eqb_neq. intros E. inversion E; subst c.
  vm_compute in Hc. lia.
Qed.

Lemma letter_not_pauseKey v key :
  isLetter key = true -> pauseKey v key = false.
Proof.
  intros Hk. destruct v; simpl.
  - apply letter_not_named; [exact Hk | simpl; lia].
  - apply letter_not_space. exact Hk.
Qed.

Lemma append_letter_nonempty s key :
  isLetter key = true -> String.append s key <> EmptyString.
Proof.
  intros Hk. apply isLetter_inv in Hk as (c & -> & _).
  destruct s; simpl; discriminate.
Qed.

(** A letter that is no quit key reaches [matchWord] with the letter
    appended to the input. *)
Lemma updateKey_letter v m key g :
  Model.gameOver m = false -> isLetter key = true -> quitKey v key = false ->
  updateKey v m key g =
    (m' <- matchWord v (Model.set_input m (String.append (Model.input m) key)) ;;
     ret (m', nilCmd)) g.
Proof.
  intros Hgo Hk Hq. unfold updateKey. rewrite Hgo, Hq.
  rewrite (letter_not_named key "ctrl+l") by (auto; simpl; lia).
  rewrite (letter_not_pauseKey v key Hk).
  rewrite (letter_not_named key "backspace") by (auto; simpl; lia).
  rewrite Hk. reflexivity.
Qed.

Lemma dropLast_set_input m :
  (if 0 <? len (Model.input m)
   then Model.set_input m (dropLast (Model.input m)) else m)
  = Model.set_input m (dropLast (Model.input m)).
Proof.
  destruct (0 <? len (Model.input m)) eqn:E; [reflexivity|].
  apply Z.ltb_ge in E. unfold len in E.
  destruct m as [? ? ? ? ? ? ? ? inp ? ? ? ? ?]; simpl in *.
  destruct inp; [reflexivity | simpl in E; lia].
Qed.

Lemma delete_insert_same {A} (l : list A) i a :
  delete i (<[i := a]> l) = delete i l.
Proof.
  revert i. induction l as [|b l IH]; intros [|i]; simpl; try reflexivity.
  f_equal. apply IH.
Qed.

Lemma shape_insert_matched (ws : list word) i w n :
  ws !! i = Some w ->
  shape <$> <[i := Word.set_matched w n]> ws = shape <$> ws.
Proof.
  intros Hi. rewrite list_fmap_insert.
  apply list_insert_id. rewrite list_lookup_fmap, Hi. reflexivity.
Qed.

End Keys.

(** ** Letters: the path to [matchWord] *)

Section Letters.

Context {ML : MathLib} {SL : StringsLib}.

Lemma prefix_refl s : String.prefix s s = true.
Proof.
  induction s as [|c s IH]; simpl; [reflexivity|].
  destruct (ascii_dec c c); [exact IH | congruence].
Qed.

Lemma length_append s t :
  String.length (String.append s t) = (String.length s + String.length t)%nat.
Proof. induction s as [|c s IH]; simpl; [reflexivity | rewrite IH; reflexivity]. Qed.

Lemma scored_words i w m : Model.words (scored i w m) = delete i (Model.words m).
Proof. unfold scored. record_simpl. destruct (_ =? 0); reflexivity. Qed.

Lemma scored_input i w m : Model.input (scored i w m) = EmptyString.
Proof. unfold scored. record_simpl. destruct (_ =? 0); reflexivity. Qed.

Lemma scored_wordsTyped i w m :
  Model.wordsTyped (scored i w m) = add (Model.wordsTyped m) 1.
Proof. unfold scored. record_simpl. destruct (_ =? 0); reflexivity. Qed.

Lemma scored_score i w m :
  Model.score (scored i w m)
  = add (Model.score m) (mul (len (Word.text w)) (add (Model.level m) 1)).
Proof. unfold scored. record_simpl. destruct (_ =? 0); reflexivity. Qed.

(** What a letter does, by the first word that starts with the new input. *)
Lemma updateKey_letter_spec v m key g :
  Model.gameOver m = false -> isLetter key = true -> quitKey v key = false ->
  let input := String.append (Model.input m) key in
  let m1 := Model.set_input m input in
  match list_find (startsWith input) (Model.words m) with
  | None => updateKey v m key g = Some (miss m1, nilCmd, g)
  | Some (i, w) =>
      if String.eqb input (Word.text w)
      then exists es g',
          updateKey v m key g =
            Some (Model.set_effects
                    (scored i (Word.set_matched w (len input)) (track i w m1))
                    (Model.effects m ++ es), nilCmd, g')
      else updateKey v m key g = Some (track i w m1, nilCmd, g)
  end.
Proof.
  intros Hgo Hk Hq input m1.
  rewrite (updateKey_letter v m key g Hgo Hk Hq). fold input. fold m1.
  unfold bind. rewrite matchWord_spec by (apply append_letter_nonempty; exact Hk).
  change (Model.input m1) with input. change (Model.words m1) with (Model.words m).
  destruct (list_find (startsWith input) (Model.words m)) as [[i w]|] eqn:Hfind;
    [|reflexivity].
  destruct (String.eqb input (Word.text w)) eqn:Heq; [|reflexivity].
  apply String.eqb_eq in Heq.
  destruct (hit_spec v i (Word.set_matched w (len input)) (track i w m1) g)
    as (es & g' & Hhit & _).
  { record_simpl. rewrite <- Heq. unfold input.
    apply isLetter_inv in Hk as (c & -> & _). unfold len.
    rewrite length_append. simpl. lia. }
  rewrite Hhit. exists es, g'. reflexivity.
Qed.

End Letters.

(** ** Lists in order *)

Lemma Forall_sublist {A} (P : A -> Prop) (l1 l2 : list A) :
  l1 `sublist_of` l2 -> Forall P l2 -> Forall P l1.
Proof.
  intros Hsub Hall. apply Forall_forall. intros a Ha.
  rewrite Forall_forall in Hall. apply Hall.
  eapply elem_of_sublist; eassumption.
Qed.

Lemma StronglySorted_sublist {A} (R : A -> A -> Prop) (l1 l2 : list A) :
  l1 `sublist_of` l2 -> StronglySorted R l2 -> StronglySorted R l1.
Proof.
  induction 1 as [|a l1 l2 Hsub IH|a l1 l2 Hsub IH]; intros Hs.
  - constructor.
  - apply StronglySorted_inv in Hs as [Hs Hall]. constructor; [auto|].
    eapply Forall_sublist; eassumption.
  - apply StronglySorted_inv in Hs as [Hs _]. auto.
Qed.

Lemma StronglySorted_snoc {A} (R : A -> A -> Prop) (l : list A) a :
  StronglySorted R l -> Forall (fun b => R b a) l -> StronglySorted R (l ++ [a]).
Proof.
  intros Hs Hall. apply StronglySorted_app_2.
  - intros b a' Hb Ha'. apply list_elem_of_singleton in Ha' as ->.
    rewrite Forall_forall in Hall. auto.
  - exact Hs.
  - repeat constructor.
Qed.

(** Two lists of words of the same shapes are placed and ordered alike. *)
Lemma Forall_placed_shape dict (ws : list word) : forall ws' : list word,
  shape <$> ws' = shape <$> ws ->
  Forall (placed dict) ws -> Forall (placed dict) ws'.
Proof.
  induction ws as [|w ws IH]; intros [|w' ws'] Heq Hall;
    try discriminate; [constructor|].
  simpl in Heq. injection Heq as Ht Hx Hy Hws.
  apply Forall_cons in Hall as [Hp Hall].
  constructor; [|auto].
  unfold placed in *. rewrite Ht, Hx, Hy. exact Hp.
Qed.

Lemma Forall_below_shape (a a' : word) (ws : list word) : forall ws' : list word,
  Word.y a' = Word.y a ->
  shape <$> ws' = shape <$> ws ->
  Forall (below a) ws -> Forall (below a') ws'.
Proof.
  intros ws' Ha.
  revert ws'. induction ws as [|w ws IH]; intros [|w' ws'] Heq Hall;
    try discriminate; [constructor|].
  simpl in Heq. injection Heq as Ht Hx Hy Hws.
  apply Forall_cons in Hall as [Hp Hall].
  constructor; [|auto].
  unfold below in *. rewrite Ha, Hy. exact Hp.
Qed.

Lemma StronglySorted_below_shape (ws : list word) : forall ws' : list word,
  shape <$> ws' = shape <$> ws ->
  StronglySorted below ws -> StronglySorted below ws'.
Proof.
  induction ws as [|w ws IH]; intros [|w' ws'] Heq Hs;
    try discriminate; [constructor|].
  simpl in Heq. injection Heq as Ht Hx Hy Hws.
  apply StronglySorted_inv in Hs as [Hs Hall].
  constructor; [auto|].
  eapply Forall_below_shape; [exact Hy|exact Hws|exact Hall].
Qed.

(** ** The dictionary *)

Section Dictionary.

Context {SL : StringsLib}.

(** The loop of [loadDictionary] keeps, in order, the trimmed lines that
    pass the length test, in lower case. *)
Lemma fold_scanLine v lines : forall words,
  fold_left (scanLine v) lines words
  = words ++ List.map ToLower (List.filter (accepted v) (List.map TrimSpace lines)).
Proof.
  induction lines as [|line lines IH]; intros words; simpl.
  - rewrite app_nil_r. reflexivity.
  - rewrite IH. unfold scanLine.
    destruct (accepted v (TrimSpace line)); simpl; [|reflexivity].
    rewrite <- app_assoc. reflexivity.
Qed.

Lemma loadDictionary_File v lines scanErr :
  loadDictionary v (File lines scanErr)
  = (List.map ToLower (List.filter (accepted v) (List.map TrimSpace lines)), scanErr).
Proof. simpl. rewrite fold_scanLine. reflexivity. Qed.

(** An entry is the lower case of a trimmed line that passed the length
    test: it has [UTFMax] bytes at most for each byte of that line. *)
Lemma entry_len v line :
  len line <= MaxScanTokenSize -> accepted v (TrimSpace line) = true ->
  len (ToLower (TrimSpace line)) <= maxEntry v.
Proof.
  intros Hline Hacc.
  pose proof (TrimSpace_len line) as Ht.
  pose proof (ToLower_len (TrimSpace line)) as Hl.
  unfold maxEntry, UTFMax in *. destruct v; simpl in Hacc.
  - lia.
  - apply andb_true_iff in Hacc as [_ H12]. apply Z.leb_le in H12. lia.
Qed.

Lemma start_playable v r now m :
  scannable r -> start v r now = Some m ->
  playable v (Model.dict m) /\ m = initialModel (Model.dict m) now.
Proof.
  unfold start. destruct r as [err|lines scanErr]; [discriminate|].
  rewrite loadDictionary_File. intros Hscan.
  destruct scanErr; [discriminate|].
  set (dict := List.map ToLower _).
  destruct (len_slice dict =? 0) eqn:E; [discriminate|].
  intros H. injection H as <-. simpl. split; [|reflexivity].
  split.
  - intros Hnil. rewrite Hnil in E. discriminate.
  - subst dict. simpl in Hscan. clear E.
    induction lines as [|line lines IH]; simpl; [constructor|].
    apply Forall_cons in Hscan as [Hline Hscan].
    destruct (accepted v (TrimSpace line)) eqn:Hacc; simpl; [|auto].
    constructor; [|auto]. apply entry_len; assumption.
Qed.

End Dictionary.

Lemma Inv_initialModel v dict now :
  playable v dict -> Inv v (initialModel dict now).
Proof.
  intros Hd. split; simpl; [exact Hd | lia | reflexivity | constructor | constructor].
Qed.

Lemma playable_len v dict s :
  playable v dict -> s ∈ dict ->
  len s <= UTFMax * MaxScanTokenSize /\ (v = VariantB -> len s <= 48).
Proof.
  intros [_ Hall] Hin. rewrite Forall_forall in Hall.
  specialize (Hall s Hin). unfold maxEntry, UTFMax, MaxScanTokenSize in *.
  destruct v; split; try lia; discriminate.
Qed.

(** ** The tick under the invariant *)

Section Tick.

Context {ML : MathLib} {SL : StringsLib}.

Lemma Inv_frame v m m' :
  Inv v m ->
  Model.dict m' = Model.dict m -> Model.lives m' = Model.lives m ->
  Model.gameOver m' = Model.gameOver m -> Model.words m' = Model.words m ->
  Inv v m'.
Proof.
  intros [Hd Hl Hg Hp Ho] Ed El Eg Ew.
  split; rewrite ?Ed, ?El, ?Eg, ?Ew; assumption.
Qed.

Lemma Inv_set_words v m ws :
  Inv v m -> Forall (placed (Model.dict m)) ws -> StronglySorted below ws ->
  Inv v (Model.set_words m ws).
Proof. intros [Hd Hl Hg Hp Ho] Hp' Ho'. split; assumption. Qed.

Lemma Inv_playing v m :
  Inv v m -> Model.gameOver m = false -> 1 <= Model.lives m <= 3.
Proof.
  intros [_ Hl Hg _ _] Hgo. rewrite Hg in Hgo. apply Z.leb_gt in Hgo. lia.
Qed.

(** On the screen, a row further down is the next row: no wrap-around. *)
Lemma descend_row dict w :
  placed dict w -> descend w = Word.set_y w (Word.y w + 1).
Proof.
  intros (Hy & _). unfold descend. rewrite gameHeight_eq in Hy.
  rewrite add_small by (rewrite minInt_eq, maxInt_eq; lia). reflexivity.
Qed.

Lemma descend_placed dict w :
  placed dict w -> onScreen (descend w) ->
  placed dict (descend w) /\ 1 <= Word.y (descend w).
Proof.
  intros Hp Hon. rewrite (descend_row dict w Hp) in *.
  destruct Hp as (Hy & Ht & Hx). unfold onScreen in Hon. simpl in *.
  repeat split; simpl; try assumption; lia.
Qed.

(** The words in rows of their own: only the first can reach the bottom. *)
Lemma fallen_at_most_one dict (ws : list word) :
  Forall (placed dict) ws -> StronglySorted below ws ->
  (length (filter fallen (descend <$> ws)) <= 1)%nat.
Proof.
  intros Hp Ho. destruct ws as [|w ws]; [simpl; lia|].
  apply Forall_cons in Hp as [Hw Hp].
  apply StronglySorted_inv in Ho as [_ Hlow].
  assert (Hnone : filter fallen (descend <$> ws) = []).
  { clear -Hw Hp Hlow. induction ws as [|w' ws IH]; [reflexivity|].
    apply Forall_cons in Hp as [Hw' Hp]. apply Forall_cons in Hlow as [Hlt Hlow].
    rewrite fmap_cons, filter_cons_False; [auto|].
    rewrite (descend_row dict w' Hw'). unfold fallen, below in *. simpl.
    destruct Hw as (Hy & _). lia. }
  rewrite fmap_cons. destruct (decide (fallen (descend w))).
  - rewrite filter_cons_True by assumption. rewrite Hnone. simpl. lia.
  - rewrite filter_cons_False by assumption. rewrite Hnone. simpl. lia.
Qed.

Lemma descent_ordered dict (ws : list word) :
  Forall (placed dict) ws -> StronglySorted below ws ->
  Forall (fun w => placed dict w /\ 1 <= Word.y w) (filter onScreen (descend <$> ws))
  /\ StronglySorted below (filter onScreen (descend <$> ws)).
Proof.
  intros Hp Ho. split.
  - induction ws as [|w ws IH]; [constructor|].
    apply Forall_cons in Hp as [Hw Hp].
    apply StronglySorted_inv in Ho as [Ho _].
    rewrite fmap_cons. destruct (decide (onScreen (descend w))) as [Hon|Hoff].
    + rewrite filter_cons_True by assumption.
      constructor; [apply descend_placed; assumption | auto].
    + rewrite filter_cons_False by assumption. auto.
  - eapply StronglySorted_sublist; [apply sublist_filter|].
    induction Ho as [|w ws Ho IH Hlow]; [constructor|].
    apply Forall_cons in Hp as [Hw Hp].
    rewrite fmap_cons. constructor; [auto|].
    clear IH Ho. induction ws as [|w' ws IH]; [constructor|].
    apply Forall_cons in Hp as [Hw' Hp]. apply Forall_cons in Hlow as [Hlt Hlow].
    rewrite fmap_cons. constructor; [|auto].
    rewrite (descend_row dict w Hw), (descend_row dict w' Hw').
    unfold below in *. simpl. lia.
Qed.

Lemma loseLife_Inv v m :
  Inv v m -> 1 <= Model.lives m ->
  Inv v (loseLife m) /\ Model.lives (loseLife m) = Model.lives m - 1.
Proof.
  intros [Hd Hl Hg Hp Ho] H1. unfold loseLife. record_simpl.
  rewrite sub_small by (rewrite minInt_eq, maxInt_eq; lia).
  destruct (Model.lives m - 1 <=? 0) eqn:E; record_simpl.
  - split; [|reflexivity]. split; record_simpl; try assumption; [lia|].
    rewrite E. reflexivity.
  - split; [|reflexivity]. split; record_simpl; try assumption; [lia|].
    rewrite E. rewrite Hg. apply Z.leb_gt in E. apply Z.leb_gt. lia.
Qed.

Lemma loseLife_frame m :
  Model.words (loseLife m) = Model.words m
  /\ Model.dict (loseLife m) = Model.dict m
  /\ Model.effects (loseLife m) = Model.effects m
  /\ Model.level (loseLife m) = Model.level m
  /\ Model.paused (loseLife m) = Model.paused m.
Proof.
  unfold loseLife. record_simpl.
  destruct (sub (Model.lives m) 1 <=? 0); repeat split.
Qed.

(** Descent in a game that runs: the rows grow by one, the words that reach
    the bottom are removed, a life is lost for each, and the invariant holds
    again, with no word left in row 0. *)
Lemma moveWords_Inv v m g :
  Inv v m -> Model.gameOver m = false ->
  exists m1,
    moveWords m g = Some (m1, g)
    /\ Model.words m1 = filter onScreen (descend <$> Model.words m)
    /\ Model.lives m1
       = Model.lives m - Z.of_nat (length (filter fallen (descend <$> Model.words m)))
    /\ Model.dict m1 = Model.dict m
    /\ Model.effects m1 = Model.effects m
    /\ Model.level m1 = Model.level m
    /\ Model.paused m1 = Model.paused m
    /\ Inv v m1
    /\ Forall (fun w => 1 <= Word.y w) (Model.words m1).
Proof.
  intros HI Hgo. pose proof (Inv_playing v m HI Hgo) as Hlives.
  pose proof HI as [Hd Hl Hg Hp Ho].
  rewrite moveWords_spec. eexists. split; [reflexivity|].
  pose proof (fallen_at_most_one _ _ Hp Ho) as Hk.
  destruct (descent_ordered _ _ Hp Ho) as [Hp' Ho'].
  assert (HI' : Inv v (Model.set_words m (filter onScreen (descend <$> Model.words m)))).
  { apply Inv_set_words; [exact HI | | exact Ho'].
    eapply Forall_impl; [exact Hp'|]. intros w [Hw _]. exact Hw. }
  assert (Hrows : Forall (fun w => 1 <= Word.y w)
                    (filter onScreen (descend <$> Model.words m))).
  { eapply Forall_impl; [exact Hp'|]. intros w [_ Hw]. exact Hw. }
  destruct (length (filter fallen (descend <$> Model.words m))) as [|[|k]]; [| |lia].
  - simpl Nat.iter. record_simpl. repeat apply conj; try assumption; try lia; reflexivity.
  - simpl Nat.iter.
    destruct (loseLife_Inv v _ HI') as [HI'' Hl'']; [record_simpl; lia|].
    destruct (loseLife_frame
                (Model.set_words m (filter onScreen (descend <$> Model.words m))))
      as (Ew & Ed & Ee & Ev & Ep).
    rewrite Hl'', Ew, Ed, Ee, Ev, Ep. record_simpl.
    repeat apply conj; try assumption; try lia; reflexivity.
Qed.

End Tick.

(** ** Effect decay and the spawn decision *)

Section Spawn.

Context {ML : MathLib} {SL : StringsLib}.

Lemma updateParticle_total j (ps : list particle) g :
  (j < length ps)%nat ->
  exists ps', updateParticle j ps g = Some (ps', g) /\ (j <= length ps')%nat.
Proof.
  intros Hj. unfold updateParticle.
  destruct (lookup_lt_is_Some_2 ps j Hj) as [p Hp].
  rewrite (bind_Some _ _ _ _ _ (index_Some _ _ _ _ Hp)). cbv zeta.
  unfold ret. eexists. split; [reflexivity|].
  destruct (_ <=? 0).
  - rewrite length_delete by (apply lookup_lt_is_Some_2; rewrite length_insert; exact Hj).
    rewrite length_insert. lia.
  - rewrite length_insert. lia.
Qed.

Lemma updateParticles_loop_total n : forall (ps : list particle) g,
  (n <= length ps)%nat ->
  exists ps', updateParticles_loop n ps g = Some (ps', g).
Proof.
  induction n as [|n IH]; intros ps g Hn.
  - exists ps. reflexivity.
  - simpl. destruct (updateParticle_total n ps g) as (ps1 & H1 & Hlen); [lia|].
    rewrite (bind_Some _ _ _ _ _ H1). apply IH. exact Hlen.
Qed.

Lemma updateEffect_total i (es : list effect) g :
  (i < length es)%nat ->
  exists es', updateEffect i es g = Some (es', g) /\ (i <= length es')%nat.
Proof.
  intros Hi. unfold updateEffect.
  destruct (lookup_lt_is_Some_2 es i Hi) as [e He].
  rewrite (bind_Some _ _ _ _ _ (index_Some _ _ _ _ He)).
  destruct (updateParticles_loop_total (length (Effect.particles e))
              (Effect.particles e) g) as (ps & Hps); [lia|].
  rewrite (bind_Some _ _ _ _ _ Hps). cbv zeta.
  unfold ret. eexists. split; [reflexivity|].
  destruct (_ =? 0).
  - rewrite length_delete by (apply lookup_lt_is_Some_2; rewrite length_insert; exact Hi).
    rewrite length_insert. lia.
  - rewrite length_insert. lia.
Qed.

Lemma updateEffects_loop_total n : forall (es : list effect) g,
  (n <= length es)%nat ->
  exists es', updateEffects_loop n es g = Some (es', g).
Proof.
  induction n as [|n IH]; intros es g Hn.
  - exists es. reflexivity.
  - simpl. destruct (updateEffect_total n es g) as (es1 & H1 & Hlen); [lia|].
    rewrite (bind_Some _ _ _ _ _ H1). apply IH. exact Hlen.
Qed.

(** Effect decay never panics, draws nothing and changes the effects only. *)
Lemma updateEffects_total m g :
  exists es, updateEffects m g = Some (Model.set_effects m es, g).
Proof.
  unfold updateEffects.
  destruct (updateEffects_loop_total (length (Model.effects m)) (Model.effects m) g)
    as (es & Hes); [lia|].
  rewrite (bind_Some _ _ _ _ _ Hes). exists es. reflexivity.
Qed.

Lemma shouldSpawn_total v m g : exists b g', shouldSpawn v m g = Some (b, g').
Proof.
  unfold shouldSpawn. destruct v.
  - unfold bind, Float64, ret. eauto.
  - destruct (_ <? _); unfold bind, Float64, ret; eauto.
Qed.

Lemma spawn_spec v m g :
  playable v (Model.dict m) ->
  exists k text x,
    Intn (len_slice (Model.dict m)) g = Some (k, advance g)
    /\ Model.dict m !! Z.to_nat k = Some text
    /\ Intn (maxColumn text + 1) (advance g) = Some (x, advance (advance g))
    /\ spawn m g
       = Some (Model.set_words m
                 (Model.words m ++
                    [{| Word.text := text; Word.x := x; Word.y := 0; Word.matched := 0 |}]),
               advance (advance g))
    /\ spawned (Model.dict m)
         {| Word.text := text; Word.x := x; Word.y := 0; Word.matched := 0 |}.
Proof.
  intros [Hne Hall]. unfold spawn.
  destruct (Intn_range (len_slice (Model.dict m)) g) as (k & Hk & Hkr).
  { unfold len_slice. destruct (Model.dict m); [congruence | simpl; lia]. }
  rewrite (bind_Some _ _ _ _ _ Hk).
  destruct (lookup_lt_is_Some_2 (Model.dict m) (Z.to_nat k)) as [newWord Hw].
  { unfold len_slice in Hkr. lia. }
  rewrite (bind_Some _ _ _ _ _ (index_Some _ _ _ _ Hw)). cbv zeta.
  assert (Hin : newWord ∈ Model.dict m) by (apply list_elem_of_lookup; eauto).
  destruct (playable_len v _ _ (conj Hne Hall) Hin) as [Hlen _].
  pose proof (len_nonneg newWord) as Hlen0.
  unfold UTFMax, MaxScanTokenSize in Hlen.
  assert (Hmax : (if sub (sub screenWidth (len newWord)) 1 <? 0 then 0
                  else sub (sub screenWidth (len newWord)) 1) = maxColumn newWord).
  { unfold screenWidth, maxColumn.
    rewrite (sub_small 80) by (rewrite minInt_eq, maxInt_eq; lia).
    rewrite sub_small by (rewrite minInt_eq, maxInt_eq; lia).
    destruct (80 - len newWord - 1 <? 0) eqn:E.
    - apply Z.ltb_lt in E. unfold screenWidth. lia.
    - apply Z.ltb_ge in E. unfold screenWidth. lia. }
  rewrite Hmax.
  assert (Hcol : 0 <= maxColumn newWord <= 80) by (unfold maxColumn, screenWidth; lia).
  rewrite add_small by (rewrite minInt_eq, maxInt_eq; lia).
  destruct (Intn_range (maxColumn newWord + 1) (advance g)) as (x & Hx & Hxr); [lia|].
  rewrite (bind_Some _ _ _ _ _ Hx). unfold ret.
  exists k, newWord, x. split; [exact Hk|]. split; [exact Hw|].
  split; [exact Hx|]. split; [reflexivity|].
  unfold spawned. simpl. repeat split; try lia. exact Hin.
Qed.

(** The spawn decision: nothing, or one word more at the end. *)
Lemma maybeAddWord_spec v m g :
  playable v (Model.dict m) ->
  exists new g',
    maybeAddWord v m g = Some (Model.set_words m (Model.words m ++ new), g')
    /\ (new = [] \/ exists w, new = [w] /\ spawned (Model.dict m) w
                              /\ len_slice (Model.words m) < cap v).
Proof.
  intros Hd. unfold maybeAddWord.
  destruct (cap v <=? len_slice (Model.words m)) eqn:Hcap.
  { exists [], g. rewrite app_nil_r. split; [|auto].
    unfold ret. destruct m; reflexivity. }
  apply Z.leb_gt in Hcap.
  destruct (shouldSpawn_total v m g) as (b & g1 & Hb).
  rewrite (bind_Some _ _ _ _ _ Hb). destruct b.
  - destruct (spawn_spec v m g1 Hd) as (k & text & x & _ & _ & _ & Hw & Hsp).
    eexists [_], _. split; [exact Hw|]. right. eauto.
  - exists [], g1. rewrite app_nil_r. split; [|auto].
    unfold ret. destruct m; reflexivity.
Qed.

End Spawn.

(** ** The tick as a whole *)

Section Reachable.

Context {ML : MathLib} {SL : StringsLib}.

(** A tick in a game that runs. *)
Lemma updateTick_playing v m g :
  Inv v m -> Model.paused m = false -> Model.gameOver m = false ->
  exists m' g' new,
    updateTick v m g = Some (m', tickCmd, g')
    /\ Model.words m' = filter onScreen (descend <$> Model.words m) ++ new
    /\ Model.lives m'
       = Model.lives m - Z.of_nat (length (filter fallen (descend <$> Model.words m)))
    /\ (new = [] \/
        exists w, new = [w] /\ spawned (Model.dict m) w
                  /\ len_slice (filter onScreen (descend <$> Model.words m)) < cap v)
    /\ Model.dict m' = Model.dict m
    /\ Model.level m' = Model.level m
    /\ Inv v m'.
Proof.
  intros HI Hp Hgo. unfold updateTick. rewrite Hp, Hgo. cbn [negb andb].
  destruct (moveWords_Inv v m g HI Hgo)
    as (m1 & Hm1 & Hws1 & Hl1 & Hd1 & He1 & Hv1 & Hp1 & HI1 & Hrows1).
  rewrite (bind_Some _ _ _ _ _ Hm1).
  assert (Hm2 : exists es,
             match v with VariantA => ret m1 | VariantB => updateEffects m1 end g
             = Some (Model.set_effects m1 es, g)).
  { destruct v; [|apply updateEffects_total].
    exists (Model.effects m1). unfold ret. destruct m1; reflexivity. }
  destruct Hm2 as (es & Hm2). rewrite (bind_Some _ _ _ _ _ Hm2).
  set (m2 := Model.set_effects m1 es).
  assert (HI2 : Inv v m2) by (apply (Inv_frame v m1); [exact HI1 | reflexivity..]).
  destruct (maybeAddWord_spec v m2 g) as (new & g' & Hm3 & Hnew);
    [apply HI2|].
  rewrite (bind_Some _ _ _ _ _ Hm3). unfold ret.
  do 3 eexists. split; [reflexivity|]. record_simpl.
  change (Model.words m2) with (Model.words m1) in *.
  change (Model.dict m2) with (Model.dict m1) in *.
  rewrite Hws1 in *. rewrite Hd1 in *.
  split; [reflexivity|]. split; [exact Hl1|]. split; [exact Hnew|].
  split; [reflexivity|]. split; [exact Hv1|].
  destruct HI2 as [Hd2 Hl2 Hg2 Hp2 Ho2].
  change (Model.words m2) with (Model.words m1) in *.
  change (Model.dict m2) with (Model.dict m1) in *.
  rewrite Hws1 in *. rewrite Hd1 in *.
  split; unfold m2; record_simpl; rewrite ?Hd1; try assumption.
  - destruct Hnew as [->|(w & -> & Hsp & _)].
    + rewrite app_nil_r. assumption.
    + apply Forall_app. split; [assumption|].
      constructor; [|constructor].
      destruct Hsp as (Hy & _ & Ht & Hx). unfold placed.
      rewrite Hy, gameHeight_eq. repeat split; try lia; assumption.
  - destruct Hnew as [->|(w & -> & Hsp & _)].
    + rewrite app_nil_r. assumption.
    + apply StronglySorted_snoc; [assumption|].
      eapply Forall_impl; [exact Hrows1|]. intros b Hb. unfold below.
      destruct Hsp as (Hy & _). simpl in Hb. lia.
Qed.

(** A tick in a game that is paused or over. *)
Lemma updateTick_idle v m g :
  Model.paused m = true \/ Model.gameOver m = true ->
  updateTick v m g = Some (m, tickCmd, g).
Proof.
  intros H. unfold updateTick.
  destruct H as [-> | ->]; [|rewrite andb_false_r]; reflexivity.
Qed.

End Reachable.

(** ** The invariant along a run *)

Section ReachableInv.

Context {ML : MathLib} {SL : StringsLib}.

Lemma scored_frame i w m :
  Model.lives (scored i w m) = Model.lives m
  /\ Model.dict (scored i w m) = Model.dict m
  /\ Model.gameOver (scored i w m) = Model.gameOver m.
Proof. unfold scored. record_simpl. destruct (_ =? 0); repeat split. Qed.

(** What a keystroke leaves alone. *)
Lemma updateKey_frame v m key g :
  exists m' c g',
    updateKey v m key g = Some (m', c, g')
    /\ Model.lives m' = Model.lives m
    /\ Model.dict m' = Model.dict m
    /\ Model.gameOver m' = Model.gameOver m
    /\ (shape <$> Model.words m' = shape <$> Model.words m
        \/ isLetter key = true
           /\ exists i w,
                list_find (startsWith (String.append (Model.input m) key))
                  (Model.words m) = Some (i, w)
                /\ Word.text w = String.append (Model.input m) key
                /\ shape <$> Model.words m' = delete i (shape <$> Model.words m))
    /\ (Model.gameOver m = false -> key = "backspace"%string ->
        m' = Model.set_current
               (Model.set_input m (dropLast (Model.input m))) None).
Proof.
  destruct (Model.gameOver m) eqn:Hgo.
  { unfold updateKey. rewrite Hgo.
    destruct (_ || _); do 3 eexists; (split; [reflexivity|]);
      repeat split; auto; discriminate. }
  destruct (quitKey v key) eqn:Hq.
  { unfold updateKey. rewrite Hgo, Hq. do 3 eexists. split; [reflexivity|].
    repeat split; auto. intros _ ->. destruct v; discriminate. }
  destruct (String.eqb key "ctrl+l") eqn:Hl.
  { unfold updateKey. rewrite Hgo, Hq, Hl. do 3 eexists. split; [reflexivity|].
    repeat split; auto. intros _ ->. discriminate. }
  destruct (pauseKey v key) eqn:Hp.
  { unfold updateKey. rewrite Hgo, Hq, Hl, Hp. do 3 eexists. split; [reflexivity|].
    repeat split; auto. intros _ ->. destruct v; discriminate. }
  destruct (String.eqb key "backspace") eqn:Hb.
  { unfold updateKey. rewrite Hgo, Hq, Hl, Hp, Hb. cbv zeta.
    rewrite dropLast_set_input. do 3 eexists. split; [reflexivity|].
    repeat split; auto. }
  destruct (isLetter key) eqn:Hk.
  2:{ unfold updateKey. rewrite Hgo, Hq, Hl, Hp, Hb, Hk.
      do 3 eexists. split; [reflexivity|].
      repeat split; auto. intros _ ->. discriminate. }
  pose proof (updateKey_letter_spec v m key g Hgo Hk Hq) as Hspec.
  cbv zeta in Hspec.
  destruct (list_find _ (Model.words m)) as [[i w]|] eqn:Hfind.
  2:{ rewrite Hspec. do 3 eexists. split; [reflexivity|].
      repeat split; auto. intros _ ->. discriminate. }
  pose proof Hfind as Hfind'.
  apply list_find_Some in Hfind' as (Hi & _ & _).
  destruct (String.eqb _ (Word.text w)) eqn:Heq.
  - destruct Hspec as (es & g' & ->). apply String.eqb_eq in Heq.
    do 3 eexists. split; [reflexivity|]. record_simpl.
    destruct (scored_frame i (Word.set_matched w
                (len (String.append (Model.input m) key)))
                (track i w (Model.set_input m (String.append (Model.input m) key))))
      as (El & Ed & Eg).
    rewrite El, Ed, Eg. unfold track at 1 2 3. record_simpl.
    split; [reflexivity|]. split; [reflexivity|]. split; [exact Hgo|].
    split; [|intros _ ->; discriminate].
    right. split; [reflexivity|]. exists i, w.
    split; [reflexivity|]. split; [symmetry; exact Heq|].
    rewrite scored_words. unfold track. record_simpl.
    rewrite delete_insert_same. apply list_fmap_delete.
  - rewrite Hspec. do 3 eexists. split; [reflexivity|].
    unfold track. record_simpl.
    split; [reflexivity|]. split; [reflexivity|]. split; [exact Hgo|].
    split; [|intros _ ->; discriminate].
    left. apply shape_insert_matched. exact Hi.
Qed.

Lemma delete_shape (ws ws' : list word) i :
  shape <$> ws' = delete i (shape <$> ws) ->
  exists ws0 : list word, ws0 `sublist_of` ws /\ shape <$> ws' = shape <$> ws0.
Proof.
  intros H. exists (delete i ws). split; [apply sublist_delete|].
  rewrite list_fmap_delete. exact H.
Qed.

(** [Update] never panics under the invariant, and keeps it. *)
Lemma Update_Inv v m msg g :
  Inv v m ->
  exists m' c g', Update v m msg g = Some (m', c, g') /\ Inv v m'.
Proof.
  intros HI. destruct msg as [key| |w h|]; simpl Update.
  - destruct (updateKey_frame v m key g)
      as (m' & c & g' & Hk & El & Ed & Eg & Hws & _).
    exists m', c, g'. split; [exact Hk|].
    destruct HI as [Hd Hl Hg Hp Ho].
    split; rewrite ?El, ?Ed, ?Eg; try assumption.
    + destruct Hws as [Hsame | (_ & i & w & _ & _ & Hdel)].
      * eapply Forall_placed_shape; eassumption.
      * destruct (delete_shape _ _ _ Hdel) as (ws0 & Hsub & Hsame).
        eapply Forall_placed_shape; [exact Hsame|].
        eapply Forall_sublist; eassumption.
    + destruct Hws as [Hsame | (_ & i & w & _ & _ & Hdel)].
      * eapply StronglySorted_below_shape; eassumption.
      * destruct (delete_shape _ _ _ Hdel) as (ws0 & Hsub & Hsame).
        eapply StronglySorted_below_shape; [exact Hsame|].
        eapply StronglySorted_sublist; eassumption.
  - destruct (Model.paused m) eqn:Hp.
    { rewrite updateTick_idle by auto. eauto. }
    destruct (Model.gameOver m) eqn:Hgo.
    { rewrite updateTick_idle by auto. eauto. }
    destruct (updateTick_playing v m g HI Hp Hgo)
      as (m' & g' & new & Ht & _ & _ & _ & _ & _ & HI').
    eauto.
  - unfold ret. do 3 eexists. split; [reflexivity|].
    apply (Inv_frame v m); [exact HI | reflexivity..].
  - unfold ret. eauto.
Qed.

Lemma reachable_Inv v m : reachable v m -> Inv v m.
Proof.
  induction 1 as [r now m Hscan Hstart | m msg g m' c g' Hr IH Hstep].
  - destruct (start_playable v r now m Hscan Hstart) as [Hd ->].
    apply Inv_initialModel. exact Hd.
  - destruct (Update_Inv v m msg g IH) as (m1 & c1 & g1 & Hu & HI).
    rewrite Hstep in Hu. injection Hu as <- _ _. exact HI.
Qed.

(** A run of the event loop from a reachable state ends in one. *)
Lemma reachable_run v msgs : forall m g m',
  reachable v m -> fst <$> run v msgs m g = Some m' -> reachable v m'.
Proof.
  induction msgs as [|msg msgs IH]; intros m g m' Hr Hrun.
  - injection Hrun as <-. exact Hr.
  - simpl in Hrun. unfold bind in Hrun.
    destruct (Update v m msg g) as [[[m1 c] g1]|] eqn:Hu; [|discriminate].
    eapply IH; [|exact Hrun]. simpl.
    eapply reachable_Update; eassumption.
Qed.

End ReachableInv.

(** ** Columns *)

Section MoreFacts.
Context {ML : MathLib} {SL : StringsLib}.

Lemma column_shape (ws : list word) :
  (fun s : string * int * int => (s.1.1, s.1.2)) <$> (shape <$> ws) = column <$> ws.
Proof. rewrite <- list_fmap_compose. reflexivity. Qed.

End MoreFacts.

(** * The claims *)

Section Claims.

Context {ML : MathLib} {SL : StringsLib}.

(** C1, amended. When, after a letter, the first word that starts with the
    input is exactly the input, the keystroke is a HIT: as long as the
    counters stay within the 64-bit integers, the score grows by
    [len(text) * (level + 1)], [wordsTyped] by one, exactly that word is
    removed and the input is empty afterwards. *)
Theorem hit_on_first_match v m key g i w :
  Model.gameOver m = false -> isLetter key = true -> quitKey v key = false ->
  Model.words m !! i = Some w ->
  Word.text w = String.append (Model.input m) key ->
  (forall j w', (j < i)%nat -> Model.words m !! j = Some w' ->
     HasPrefix (Word.text w') (String.append (Model.input m) key) = false) ->
  0 <= Model.score m -> 0 <= Model.level m -> 0 <= Model.wordsTyped m < maxInt ->
  Model.score m + len (Word.text w) * (Model.level m + 1) <= maxInt ->
  exists m' g',
    Update v m (KeyMsg key) g = Some (m', nilCmd, g')
    /\ Model.score m' = Model.score m + len (Word.text w) * (Model.level m + 1)
    /\ Model.wordsTyped m' = Model.wordsTyped m + 1
    /\ Model.words m' = delete i (Model.words m)
    /\ (length (Model.words m') + 1 = length (Model.words m))%nat
    /\ Model.input m' = EmptyString.
Proof.
  intros Hgo Hk Hq Hi Htext Hfirst Hscore Hlevel Htyped Hmax. simpl Update.
  pose proof (updateKey_letter_spec v m key g Hgo Hk Hq) as Hspec.
  cbv zeta in Hspec.
  assert (Hfind : list_find (startsWith (String.append (Model.input m) key))
                    (Model.words m) = Some (i, w)).
  { apply list_find_Some. split; [exact Hi|]. split.
    - unfold startsWith, HasPrefix. rewrite Htext. apply prefix_refl.
    - intros j w' Hj Hlt. unfold startsWith. rewrite (Hfirst j w' Hlt Hj).
      discriminate. }
  rewrite Hfind in Hspec.
  rewrite <- Htext, String.eqb_refl in Hspec.
  destruct Hspec as (es & g' & ->).
  assert (Hlen : 1 <= len (Word.text w)).
  { rewrite Htext. apply isLetter_inv in Hk as (c & -> & _). unfold len.
    rewrite length_append. simpl. lia. }
  do 2 eexists. split; [reflexivity|]. record_simpl.
  rewrite scored_score, scored_wordsTyped, scored_words, scored_input.
  unfold track. record_simpl. rewrite delete_insert_same.
  repeat split.
  - rewrite (add_small (Model.level m)) by (rewrite minInt_eq; nia).
    rewrite mul_small by (rewrite minInt_eq; nia).
    apply add_small. rewrite minInt_eq. nia.
  - apply add_small. rewrite minInt_eq. lia.
  - rewrite length_delete by eauto.
    apply lookup_lt_Some in Hi. lia.
Qed.

(** C2, amended. In every reachable state [lives] is not negative, and the
    game is over exactly when no life is left: the tick on which the last
    life is lost sets the flag. A tick never panics; once the game is over
    a tick changes nothing. (The tick that ends the game still runs to its
    end: effect decay and the spawn decision follow the descent.) *)
Theorem lives_never_negative v m :
  reachable v m ->
  0 <= Model.lives m
  /\ (Model.gameOver m = true <-> Model.lives m = 0)
  /\ forall g, exists m' g',
       Update v m tickMsg g = Some (m', tickCmd, g')
       /\ 0 <= Model.lives m'
       /\ (Model.gameOver m' = true <-> Model.lives m' = 0)
       /\ (Model.gameOver m = true -> m' = m /\ g' = g).
Proof.
  intros Hr. pose proof (reachable_Inv v m Hr) as HI.
  assert (Hflag : forall m0, Inv v m0 ->
            0 <= Model.lives m0
            /\ (Model.gameOver m0 = true <-> Model.lives m0 = 0)).
  { intros m0 [_ Hl Hg _ _]. split; [lia|]. rewrite Hg.
    rewrite Z.leb_le. lia. }
  destruct (Hflag m HI) as [Hl Hg]. split; [exact Hl|]. split; [exact Hg|].
  intros g. simpl Update.
  destruct (Model.gameOver m) eqn:Hgo.
  { rewrite updateTick_idle by auto. exists m, g.
    split; [reflexivity|]. split; [exact Hl|]. rewrite Hgo. auto. }
  destruct (Model.paused m) eqn:Hp.
  { rewrite updateTick_idle by auto. exists m, g.
    split; [reflexivity|]. split; [exact Hl|]. rewrite Hgo.
    split; [exact Hg|]. discriminate. }
  destruct (updateTick_playing v m g HI Hp Hgo)
    as (m' & g' & new & Ht & _ & _ & _ & _ & _ & HI').
  exists m', g'. split; [exact Ht|].
  destruct (Hflag m' HI') as [Hl' Hg']. split; [exact Hl'|].
  split; [exact Hg'|]. discriminate.
Qed.


(** C4, amended. A letter after which no word starts with the input is a
    MISS: the input is cleared, no word is current, the score is unchanged
    and the words are left exactly as they were, the [matched] recorded
    earlier on a word included. *)
Theorem miss_keeps_words v m key g :
  Model.gameOver m = false -> isLetter key = true -> quitKey v key = false ->
  Forall (fun w => HasPrefix (Word.text w) (String.append (Model.input m) key) = false)
    (Model.words m) ->
  exists m',
    Update v m (KeyMsg key) g = Some (m', nilCmd, g)
    /\ Model.input m' = EmptyString
    /\ Model.current m' = None
    /\ Model.score m' = Model.score m
    /\ Model.words m' = Model.words m.
Proof.
  intros Hgo Hk Hq Hnone. simpl Update.
  pose proof (updateKey_letter_spec v m key g Hgo Hk Hq) as Hspec.
  cbv zeta in Hspec.
  assert (Hfind : list_find (startsWith (String.append (Model.input m) key))
                    (Model.words m) = None).
  { apply list_find_None. eapply Forall_impl; [exact Hnone|].
    intros w Hw. unfold startsWith. rewrite Hw. discriminate. }
  rewrite Hfind in Hspec. rewrite Hspec.
  eexists. split; [reflexivity|]. repeat split.
Qed.



(** C8. While the game is paused or over, any number of ticks in a row
    leaves the whole state as it is: the words, the effects, the score, the
    level, the lives and [wordsTyped] with it. Once the game is over no
    keystroke changes the state, and only [q] and [ctrl+c] do anything: they
    quit. *)
Theorem idle_ticks_change_nothing v m :
  (Model.paused m = true \/ Model.gameOver m = true ->
   forall n g, run v (replicate n tickMsg) m g = Some (m, g))
  /\ (Model.gameOver m = true ->
      forall key g,
        Update v m (KeyMsg key) g
        = Some (m, if String.eqb key "q" || String.eqb key "ctrl+c"
                   then Quit else nilCmd, g)).
Proof.
  split.
  - intros Hidle n g. induction n as [|n IH]; [reflexivity|].
    simpl. rewrite (bind_Some _ _ _ (m, tickCmd) g (updateTick_idle v m g Hidle)).
    exact IH.
  - intros Hgo key g. simpl. unfold updateKey. rewrite Hgo.
    destruct (_ || _); reflexivity.
Qed.

(** C9, amended. In a reachable state [spawn] never panics: it draws a
    word of the dictionary with [rand.Intn], then its column with
    [rand.Intn(maxColumn + 1)], where
    [maxColumn = max 0 (screenWidth - len(text) - 1)], and adds the word in
    row 0. After any message the words are words of before, none with
    another text or column, followed by at most one new word; the new word
    fits on the screen if it is no wider than the screen, as every word of
    [VariantB] is: an entry of its dictionary is the lower case of a trimmed
    line of 12 bytes at most, and so has 48 bytes at most, whatever
    [strings.ToLower] makes of the line. *)
Theorem spawn_column v m :
  reachable v m ->
  (forall g, exists k text x,
     Intn (len_slice (Model.dict m)) g = Some (k, advance g)
     /\ Model.dict m !! Z.to_nat k = Some text
     /\ Intn (maxColumn text + 1) (advance g) = Some (x, advance (advance g))
     /\ spawn m g
        = Some (Model.set_words m
                  (Model.words m ++
                     [{| Word.text := text; Word.x := x; Word.y := 0; Word.matched := 0 |}]),
                advance (advance g)))
  /\ (forall msg g m' c g',
        Update v m msg g = Some (m', c, g') ->
        exists kept new,
          Model.words m' = kept ++ new
          /\ column <$> kept `sublist_of` column <$> Model.words m
          /\ (new = [] \/
              exists w,
                new = [w] /\ Word.y w = 0 /\ Word.text w ∈ Model.dict m
                /\ 0 <= Word.x w <= maxColumn (Word.text w)
                /\ (len (Word.text w) <= screenWidth ->
                    Word.x w + len (Word.text w) <= screenWidth)
                /\ (v = VariantB -> Word.x w + len (Word.text w) <= screenWidth))).
Proof.
  intros Hr. pose proof (reachable_Inv v m Hr) as HI. split.
  { intros g. destruct (spawn_spec v m g (inv_dict v m HI))
      as (k & text & x & Hk & Ht & Hx & Hs & _).
    exists k, text, x. auto. }
  intros msg g m' c g' Hstep.
  assert (Hidle : m' = m -> exists kept new,
             Model.words m' = kept ++ new
             /\ column <$> kept `sublist_of` column <$> Model.words m
             /\ (new = [] \/
                 exists w,
                   new = [w] /\ Word.y w = 0 /\ Word.text w ∈ Model.dict m
                   /\ 0 <= Word.x w <= maxColumn (Word.text w)
                   /\ (len (Word.text w) <= screenWidth ->
                       Word.x w + len (Word.text w) <= screenWidth)
                   /\ (v = VariantB -> Word.x w + len (Word.text w) <= screenWidth))).
  { intros ->. exists (Model.words m), []. rewrite app_nil_r.
    split; [reflexivity|]. split; [reflexivity|]. auto. }
  destruct msg as [key| |w h|]; simpl Update in Hstep.
  - destruct (updateKey_frame v m key g)
      as (m1 & c1 & g1 & Hk & _ & _ & _ & Hws & _).
    rewrite Hstep in Hk. injection Hk as <- _ _.
    exists (Model.words m'), []. rewrite app_nil_r.
    split; [reflexivity|]. split; [|auto].
    rewrite <- !(column_shape).
    destruct Hws as [-> | (_ & i & w & _ & _ & ->)]; [reflexivity|].
    apply fmap_sublist, sublist_delete.
  - destruct (Model.paused m) eqn:Hp.
    { rewrite updateTick_idle in Hstep by auto. injection Hstep as <- _ _. auto. }
    destruct (Model.gameOver m) eqn:Hgo.
    { rewrite updateTick_idle in Hstep by auto. injection Hstep as <- _ _. auto. }
    destruct (updateTick_playing v m g HI Hp Hgo)
      as (m1 & g1 & new & Ht & Hws & _ & Hnew & _).
    rewrite Hstep in Ht. injection Ht as <- _.
    exists (filter onScreen (descend <$> Model.words m)), new.
    split; [exact Hws|]. split.
    + transitivity (column <$> (descend <$> Model.words m)).
      * apply fmap_sublist, sublist_filter.
      * rewrite <- list_fmap_compose. reflexivity.
    + destruct Hnew as [->|(w & -> & (Hy & _ & Ht & Hx) & _)]; [auto|].
      right. exists w. split; [reflexivity|]. split; [exact Hy|].
      split; [exact Ht|]. split; [exact Hx|].
      pose proof (len_nonneg (Word.text w)) as Hlen.
      unfold maxColumn, screenWidth in *. split; [lia|].
      intros Hv. destruct (playable_len v _ _ (inv_dict v m HI) Ht) as [_ H48].
      specialize (H48 Hv). lia.
  - injection Hstep as <- _ _. exists (Model.words m), [].
    rewrite app_nil_r. split; [reflexivity|]. split; [reflexivity|]. auto.
  - injection Hstep as <- _ _. auto.
Qed.

(** C10. A keystroke never changes [lives] nor the text, column or row of a
    word. It removes at most one word: the words keep their [shape], or the
    key is a letter, the first word that starts with the new input is that
    input, and exactly this word is removed. A backspace (while the game
    runs) changes the input and the current word only. *)
Theorem keystroke_frame v m key g :
  exists m' c g',
    Update v m (KeyMsg key) g = Some (m', c, g')
    /\ Model.lives m' = Model.lives m
    /\ (shape <$> Model.words m' = shape <$> Model.words m
        \/ isLetter key = true
           /\ exists i w,
                list_find (startsWith (String.append (Model.input m) key))
                  (Model.words m) = Some (i, w)
                /\ Word.text w = String.append (Model.input m) key
                /\ shape <$> Model.words m' = delete i (shape <$> Model.words m))
    /\ (Model.gameOver m = false -> key = "backspace"%string ->
        m' = Model.set_current
               (Model.set_input m (dropLast (Model.input m))) None).
Proof.
  destruct (updateKey_frame v m key g)
    as (m' & c & g' & Hk & Hl & _ & _ & Hws & Hback).
  exists m', c, g'. simpl Update. auto.
Qed.

End Claims.

Lemma fresh_reachable v r dict :
  scannable r -> start (SL := asciiStrings) v r 0 = Some (initialModel dict 0) ->
  reachable (ML := seriesMath) (SL := asciiStrings) v (initialModel dict 0).
Proof. intros Hs Hst. eapply reachable_start; eassumption. Qed.

Lemma catFile_scannable : scannable catFile.
Proof. repeat constructor. vm_compute. discriminate. Qed.

Lemma catsFile_scannable : scannable catsFile.
Proof. repeat constructor; vm_compute; discriminate. Qed.

Lemma wideFile_scannable : scannable wideFile.
Proof. repeat constructor. vm_compute. discriminate. Qed.

Lemma shadowed_reachable : reachable (ML := seriesMath) (SL := asciiStrings) VariantB shadowed.
Proof.
  eapply (reachable_run VariantB
            [tickMsg; tickMsg; KeyMsg "c"; KeyMsg "a"]
            (initialModel ["cats"%string; "cat"%string] 0)
            (oracle [0; 5; 0; 1; 7]%N)).
  - apply (fresh_reachable VariantB catsFile); [apply catsFile_scannable | reflexivity].
  - vm_compute. reflexivity.
Qed.

Lemma typing_reachable : reachable (ML := seriesMath) (SL := asciiStrings) VariantB typing.
Proof.
  eapply (reachable_run VariantB [tickMsg; KeyMsg "c"; KeyMsg "a"]
            (initialModel ["cat"%string] 0) (oracle [0; 7]%N)).
  - apply (fresh_reachable VariantB catFile); [apply catFile_scannable | reflexivity].
  - vm_compute. reflexivity.
Qed.

Lemma started_reachable : reachable (ML := seriesMath) (SL := asciiStrings) VariantB started.
Proof.
  eapply (reachable_run VariantB [tickMsg; KeyMsg "c"]
            (initialModel ["cat"%string] 0) (oracle [0; 7]%N)).
  - apply (fresh_reachable VariantB catFile); [apply catFile_scannable | reflexivity].
  - vm_compute. reflexivity.
Qed.

Lemma lastLife_reachable : reachable (ML := seriesMath) (SL := asciiStrings) VariantB lastLife.
Proof.
  eapply (reachable_run VariantB (replicate 63 tickMsg)
            (initialModel ["cat"%string] 0) (oracle lastLifeDraws)).
  - apply (fresh_reachable VariantB catFile); [apply catFile_scannable | reflexivity].
  - vm_compute. reflexivity.
Qed.

(** C1, counterexample. [cats] was spawned before [cat] and both fall; after
    [c], [a], [t] the word [cat] of the word set is the input, yet the
    keystroke is no HIT: [cats] is the current word, the score and
    [wordsTyped] are unchanged, both words stay and the input is not empty. *)
Lemma hit_shadowed_by_longer_word :
  reachable (ML := seriesMath) (SL := asciiStrings) VariantB shadowed
  /\ Model.gameOver shadowed = false /\ Model.paused shadowed = false
  /\ Model.words shadowed !! 1%nat = Some (cat 7 0 0)
  /\ Word.text (cat 7 0 0) = String.append (Model.input shadowed) "t"
  /\ outcome (Update (ML := seriesMath) VariantB shadowed (KeyMsg "t") (oracle []))
     = Some (shadowedAfter, nilCmd)
  /\ Model.score shadowedAfter = Model.score shadowed
  /\ Model.wordsTyped shadowedAfter = Model.wordsTyped shadowed
  /\ length (Model.words shadowedAfter) = length (Model.words shadowed)
  /\ Model.input shadowedAfter = "cat"%string.
Proof.
  split; [exact shadowed_reachable|]. repeat split.
Qed.

(** C1, witness: the last letter of the only word, in a reachable state. *)
Lemma hit_on_first_match_witness :
  reachable (ML := seriesMath) (SL := asciiStrings) VariantB typing
  /\ exists m' g',
       Update (ML := seriesMath) VariantB typing (KeyMsg "t") (oracle [])
       = Some (m', nilCmd, g')
       /\ Model.score m' = 6
       /\ Model.wordsTyped m' = 1
       /\ Model.words m' = []
       /\ (length (Model.words m') + 1 = 1)%nat
       /\ Model.input m' = EmptyString.
Proof.
  split; [exact typing_reachable|].
  apply (hit_on_first_match (ML := seriesMath) VariantB typing "t" (oracle [])
           0%nat (cat 7 0 2)).
  - reflexivity.
  - reflexivity.
  - reflexivity.
  - reflexivity.
  - reflexivity.
  - intros j w' Hj. lia.
  - simpl. lia.
  - simpl. lia.
  - rewrite maxInt_eq. simpl. lia.
  - rewrite maxInt_eq. vm_compute. discriminate.
Defined.

(** C2, counterexample. [lastLife] is reachable and runs. The tick lowers
    its only word to the bottom: the last life is lost and the game is over,
    and still, in that same tick, the spawn decision adds a new word. *)
Lemma spawn_after_last_life :
  reachable (ML := seriesMath) (SL := asciiStrings) VariantB lastLife
  /\ Model.gameOver lastLife = false /\ Model.paused lastLife = false
  /\ Model.lives lastLife = 1
  /\ outcome (Update (ML := seriesMath) VariantB lastLife tickMsg (oracle [0; 40]%N))
     = Some (lastLifeAfter, tickCmd)
  /\ Model.lives lastLifeAfter = 0
  /\ Model.gameOver lastLifeAfter = true
  /\ Model.words lastLifeAfter = [cat 40 0 0].
Proof.
  split; [exact lastLife_reachable|]. repeat split.
Qed.

(** C2, witness: [lastLife]. *)
Lemma lives_never_negative_witness :
  0 <= Model.lives lastLife
  /\ (Model.gameOver lastLife = true <-> Model.lives lastLife = 0)
  /\ forall g, exists m' g',
       Update (ML := seriesMath) VariantB lastLife tickMsg g = Some (m', tickCmd, g')
       /\ 0 <= Model.lives m'
       /\ (Model.gameOver m' = true <-> Model.lives m' = 0)
       /\ (Model.gameOver lastLife = true -> m' = lastLife /\ g' = g).
Proof.
  apply (lives_never_negative (ML := seriesMath) (SL := asciiStrings) VariantB lastLife).
  exact lastLife_reachable.
Defined.


(** C4, counterexample. [c] was typed and [cat] has one matched letter; the
    letter [x] is a MISS, after which the word still has its matched
    letter. *)
Lemma miss_keeps_matched :
  reachable (ML := seriesMath) (SL := asciiStrings) VariantB started
  /\ Model.gameOver started = false /\ Model.paused started = false
  /\ Model.words started = [cat 7 0 1]
  /\ outcome (Update (ML := seriesMath) VariantB started (KeyMsg "x") (oracle []))
     = Some (startedAfter, nilCmd)
  /\ Model.input startedAfter = EmptyString
  /\ Model.current startedAfter = None
  /\ Word.matched <$> Model.words startedAfter = [1].
Proof.
  split; [exact started_reachable|]. repeat split.
Qed.

(** C4, witness: the letter [x] on [started]. *)
Lemma miss_keeps_words_witness :
  exists m',
    Update (ML := seriesMath) VariantB started (KeyMsg "x") (oracle [])
    = Some (m', nilCmd, oracle [])
    /\ Model.input m' = EmptyString
    /\ Model.current m' = None
    /\ Model.score m' = Model.score started
    /\ Model.words m' = Model.words started.
Proof.
  apply (miss_keeps_words (ML := seriesMath) VariantB started "x" (oracle [])).
  - reflexivity.
  - reflexivity.
  - reflexivity.
  - repeat constructor.
Defined.


(** The chance is a [float64]: at level 4 of [VariantA] it is
    [0.22999999999999998], and the draw [2071655828590428 / 2^53], which is
    below [0.23], spawns nothing. *)
Lemma spawnChance_is_rounded :
  2071655828590428 * 100 < 23 * 2 ^ 53
  /\ spawnChance VariantA 4 = S754_finite false 8286623314361712 (-55)
  /\ maybeAddWord VariantA (Model.set_level (initialModel ["cat"%string] 0) 4)
       (oracle [2071655828590428%N])
     = Some (Model.set_level (initialModel ["cat"%string] 0) 4,
             advance (oracle [2071655828590428%N])).
Proof. split; [lia|]. split; vm_compute; reflexivity. Qed.





(** C8, witness: five ticks on the game that just ended. *)
Lemma idle_ticks_change_nothing_witness :
  run (ML := seriesMath) VariantB (replicate 5 tickMsg) lastLifeAfter (oracle [0; 40]%N)
  = Some (lastLifeAfter, oracle [0; 40]%N).
Proof.
  apply (proj1 (idle_ticks_change_nothing (ML := seriesMath) VariantB lastLifeAfter)).
  right. reflexivity.
Defined.

(** C9, counterexample. [VariantA] with a dictionary of one word of 81
    letters: the word is spawned at column 0 and does not fit in the 80
    columns of the screen. *)
Lemma wide_word_overhangs :
  scannable wideFile
  /\ start (SL := asciiStrings) VariantA wideFile 0 = Some (initialModel [wideWord] 0)
  /\ outcome (Update (ML := seriesMath) VariantA (initialModel [wideWord] 0)
                tickMsg (oracle [0; 0; 0]%N))
     = Some (wideAfter, tickCmd)
  /\ Model.words wideAfter
     = [{| Word.text := wideWord; Word.x := 0; Word.y := 0; Word.matched := 0 |}]
  /\ len wideWord = 81
  /\ screenWidth < 0 + len wideWord.
Proof.
  split; [exact wideFile_scannable|]. repeat split.
Qed.

(** C9, witness: the tick of [lastLife]. *)
Lemma spawn_column_witness :
  exists kept new,
    Model.words lastLifeAfter = kept ++ new
    /\ column <$> kept `sublist_of` column <$> Model.words lastLife
    /\ (new = [] \/
        exists w,
          new = [w] /\ Word.y w = 0 /\ Word.text w ∈ Model.dict lastLife
          /\ 0 <= Word.x w <= maxColumn (Word.text w)
          /\ (len (Word.text w) <= screenWidth ->
              Word.x w + len (Word.text w) <= screenWidth)
          /\ (VariantB = VariantB -> Word.x w + len (Word.text w) <= screenWidth)).
Proof.
  apply (proj2 (spawn_column (ML := seriesMath) VariantB lastLife lastLife_reachable)
           tickMsg (oracle [0; 40]%N)
           lastLifeAfter tickCmd (advance (advance (oracle [0; 40]%N)))).
  reflexivity.
Defined.

(** * Further properties *)

(** ** Effect decay: [updateEffects] *)

Lemma updateParticle_middle pre p post g :
  updateParticle (length pre) (pre ++ p :: post) g
  = Some (if decide (alive (age p)) then pre ++ age p :: post else pre ++ post, g).
Proof.
  unfold updateParticle.
  rewrite (bind_Some _ _ _ p g)
    by (apply index_Some, list_lookup_middle; reflexivity).
  fold (age p). cbv zeta.
  replace (<[length pre:=age p]> (pre ++ p :: post)) with (pre ++ age p :: post)
    by (rewrite insert_app_r_alt by lia; rewrite Nat.sub_diag; reflexivity).
  rewrite delete_middle. unfold ret.
  destruct (decide (alive (age p))) as [Ha|Ha]; unfold alive in Ha.
  - destruct (Particle.lifetime (age p) <=? 0) eqn:E; [|reflexivity].
    apply Z.leb_le in E. lia.
  - destruct (Particle.lifetime (age p) <=? 0) eqn:E; [reflexivity|].
    apply Z.leb_gt in E. lia.
Qed.

Lemma updateParticles_loop_spec pre : forall post g,
  updateParticles_loop (length pre) (pre ++ post) g
  = Some (filter alive (age <$> pre) ++ post, g).
Proof.
  induction pre as [|p pre IH] using rev_ind; intros post g; [reflexivity|].
  rewrite length_app, Nat.add_1_r. simpl updateParticles_loop.
  rewrite <- app_assoc. simpl app.
  rewrite (bind_Some _ _ _ _ g (updateParticle_middle pre p post g)).
  rewrite fmap_app, filter_app, fmap_cons, fmap_nil.
  destruct (decide (alive (age p))) as [Ha|Ha].
  - rewrite IH. rewrite filter_cons_True by exact Ha.
    rewrite filter_nil, <- app_assoc. reflexivity.
  - rewrite IH. rewrite filter_cons_False by exact Ha.
    rewrite filter_nil, app_nil_r. reflexivity.
Qed.

Lemma updateEffect_middle pre e post g :
  updateEffect (length pre) (pre ++ e :: post) g
  = Some (if decide (lasting (decay e)) then pre ++ decay e :: post else pre ++ post, g).
Proof.
  unfold updateEffect.
  rewrite (bind_Some _ _ _ e g)
    by (apply index_Some, list_lookup_middle; reflexivity).
  pose proof (updateParticles_loop_spec (Effect.particles e) [] g) as Hps.
  rewrite !app_nil_r in Hps. rewrite (bind_Some _ _ _ _ g Hps).
  fold (decay e). cbv zeta.
  replace (<[length pre:=decay e]> (pre ++ e :: post)) with (pre ++ decay e :: post)
    by (rewrite insert_app_r_alt by lia; rewrite Nat.sub_diag; reflexivity).
  rewrite delete_middle. unfold ret.
  change (filter alive (age <$> Effect.particles e)) with (Effect.particles (decay e)).
  destruct (decide (lasting (decay e))) as [Hl|Hl]; unfold lasting in Hl.
  - destruct (len_slice (Effect.particles (decay e)) =? 0) eqn:E; [|reflexivity].
    apply Z.eqb_eq in E. contradiction.
  - destruct (len_slice (Effect.particles (decay e)) =? 0) eqn:E; [reflexivity|].
    apply Z.eqb_neq in E. contradiction.
Qed.

Lemma updateEffects_loop_spec pre : forall post g,
  updateEffects_loop (length pre) (pre ++ post) g
  = Some (filter lasting (decay <$> pre) ++ post, g).
Proof.
  induction pre as [|e pre IH] using rev_ind; intros post g; [reflexivity|].
  rewrite length_app, Nat.add_1_r. simpl updateEffects_loop.
  rewrite <- app_assoc. simpl app.
  rewrite (bind_Some _ _ _ _ g (updateEffect_middle pre e post g)).
  rewrite fmap_app, filter_app, fmap_cons, fmap_nil.
  destruct (decide (lasting (decay e))) as [Hl|Hl].
  - rewrite IH. rewrite filter_cons_True by exact Hl.
    rewrite filter_nil, <- app_assoc. reflexivity.
  - rewrite IH. rewrite filter_cons_False by exact Hl.
    rewrite filter_nil, app_nil_r. reflexivity.
Qed.

Lemma updateEffects_filter m g :
  updateEffects m g
  = Some (Model.set_effects m (filter lasting (decay <$> Model.effects m)), g).
Proof.
  unfold updateEffects.
  pose proof (updateEffects_loop_spec (Model.effects m) [] g) as H.
  rewrite !app_nil_r in H. rewrite (bind_Some _ _ _ _ g H). reflexivity.
Qed.
(** ** The cases of a keystroke and of a tick *)

Section CaseLemmas.

Context {ML : MathLib} {SL : StringsLib}.

Lemma scored_track i w n m input :
  scored i (Word.set_matched w n) (track i w (Model.set_input m input))
  = scored i w m.
Proof.
  unfold scored, track. record_simpl. rewrite delete_insert_same.
  destruct (_ =? 0); reflexivity.
Qed.

(** Every keystroke falls under one of the cases, and never panics. *)
Lemma updateKey_cases v m key g :
  exists m' c g',
    updateKey v m key g = Some (m', c, g') /\ keyCase v m key g m' c g'.
Proof.
  destruct (Model.gameOver m) eqn:Hgo.
  { pose proof (key_over v m key g Hgo) as H.
    unfold updateKey. rewrite Hgo.
    destruct (String.eqb key "q" || String.eqb key "ctrl+c");
      do 3 eexists; (split; [reflexivity|exact H]). }
  destruct (quitKey v key) eqn:Hq.
  { unfold updateKey. rewrite Hgo, Hq. do 3 eexists. split; [reflexivity|].
    apply key_quit; assumption. }
  destruct (String.eqb key "ctrl+l") eqn:Hl.
  { unfold updateKey. rewrite Hgo, Hq, Hl. do 3 eexists. split; [reflexivity|].
    apply key_redraw; try assumption. apply String.eqb_eq. exact Hl. }
  destruct (pauseKey v key) eqn:Hp.
  { unfold updateKey. rewrite Hgo, Hq, Hl, Hp. do 3 eexists. split; [reflexivity|].
    apply key_pause; assumption. }
  destruct (String.eqb key "backspace") eqn:Hb.
  { unfold updateKey. rewrite Hgo, Hq, Hl, Hp, Hb. cbv zeta.
    rewrite dropLast_set_input. do 3 eexists. split; [reflexivity|].
    apply key_backspace; [assumption|]. apply String.eqb_eq. exact Hb. }
  destruct (isLetter key) eqn:Hk.
  2:{ unfold updateKey. rewrite Hgo, Hq, Hl, Hp, Hb, Hk.
      do 3 eexists. split; [reflexivity|]. apply key_ignored; assumption. }
  unfold updateKey. rewrite Hgo, Hq, Hl, Hp, Hb, Hk. cbv zeta.
  set (input := String.append (Model.input m) key).
  unfold bind. rewrite matchWord_spec by (apply append_letter_nonempty; exact Hk).
  change (list_find (startsWith input) (Model.words m)) with
    (list_find (startsWith input) (Model.words m)).
  record_simpl.
  destruct (list_find (startsWith input) (Model.words m)) as [[i w]|] eqn:Hfind.
  2:{ do 3 eexists. split; [reflexivity|].
      change (miss (Model.set_input m input)) with (miss m).
      apply key_miss; assumption. }
  destruct (String.eqb input (Word.text w)) eqn:Heq.
  - apply String.eqb_eq in Heq.
    destruct (hit_spec v i (Word.set_matched w (len input))
                (track i w (Model.set_input m input)) g)
      as (es & g' & Hhit & Hes).
    { record_simpl. rewrite <- Heq. unfold input.
      apply isLetter_inv in Hk as (c & -> & _). unfold len.
      rewrite length_append. simpl. lia. }
    rewrite Hhit. rewrite scored_track.
    change (Model.effects (track i w (Model.set_input m input)))
      with (Model.effects m).
    do 3 eexists. split; [reflexivity|].
    apply key_hit; auto.
  - apply String.eqb_neq in Heq.
    do 3 eexists. split; [reflexivity|].
    apply key_track; try assumption. intros E. apply Heq. symmetry. exact E.
Qed.

End CaseLemmas.
(** ** The tick of a game that runs, as a whole *)

Section TickCases.

Context {ML : MathLib} {SL : StringsLib}.

Lemma iter_loseLife_set_words k m ws :
  Nat.iter k loseLife (Model.set_words m ws)
  = Model.set_words (Nat.iter k loseLife m) ws.
Proof.
  induction k as [|k IH]; [reflexivity|].
  simpl. rewrite IH, loseLife_set_words. reflexivity.
Qed.

(** Losing lives changes [lives] and [gameOver] only. *)
Lemma iter_loseLife_frame k m :
  exists l o,
    Nat.iter k loseLife m = Model.set_gameOver (Model.set_lives m l) o.
Proof.
  induction k as [|k (l & o & IH)].
  - exists (Model.lives m), (Model.gameOver m). reflexivity.
  - simpl. rewrite IH. unfold loseLife. record_simpl.
    destruct (sub l 1 <=? 0); eexists _, _; reflexivity.
Qed.

Lemma updateTick_cases v m g :
  playable v (Model.dict m) ->
  Model.paused m = false -> Model.gameOver m = false ->
  exists new g',
    updateTick v m g = Some (ticked v m new, tickCmd, g')
    /\ (new = [] \/
        exists w, new = [w] /\ spawned (Model.dict m) w
                  /\ len_slice (filter onScreen (descend <$> Model.words m)) < cap v).
Proof.
  intros Hd Hp Hgo. unfold updateTick. rewrite Hp, Hgo. cbn [negb andb].
  rewrite (bind_Some _ _ _ _ _ (moveWords_spec m g)).
  rewrite iter_loseLife_set_words.
  set (k := length (filter fallen (descend <$> Model.words m))).
  set (ws := filter onScreen (descend <$> Model.words m)).
  destruct (iter_loseLife_frame k m) as (l & o & Hk).
  set (m1 := Model.set_words (Nat.iter k loseLife m) ws).
  assert (Hm2 : match v with VariantA => ret m1 | VariantB => updateEffects m1 end g
                = Some (Model.set_effects m1 (decayed v (Model.effects m)), g)).
  { destruct v.
    - unfold decayed, m1. rewrite Hk. reflexivity.
    - rewrite updateEffects_filter. unfold decayed, m1. rewrite Hk. reflexivity. }
  rewrite (bind_Some _ _ _ _ _ Hm2).
  destruct (maybeAddWord_spec v (Model.set_effects m1 (decayed v (Model.effects m))) g)
    as (new & g' & Hm3 & Hnew).
  { unfold m1. rewrite Hk. exact Hd. }
  rewrite (bind_Some _ _ _ _ _ Hm3). unfold ret.
  exists new, g'. split.
  - unfold ticked, m1. fold k. fold ws. rewrite Hk. reflexivity.
  - unfold m1 in Hnew. rewrite Hk in Hnew. exact Hnew.
Qed.

Lemma ticked_frame v m new :
  exists l o,
    ticked v m new
    = Model.set_words
        (Model.set_effects (Model.set_gameOver (Model.set_lives m l) o)
           (decayed v (Model.effects m)))
        (filter onScreen (descend <$> Model.words m) ++ new).
Proof.
  unfold ticked.
  destruct (iter_loseLife_frame
              (length (filter fallen (descend <$> Model.words m))) m)
    as (l & o & ->).
  eauto.
Qed.

End TickCases.

(** ** Prefixes *)

Lemma prefix_length p : forall s,
  String.prefix p s = true -> (String.length p <= String.length s)%nat.
Proof.
  induction p as [|c p IH]; intros [|d s] H; simpl in *; try lia; try discriminate.
  destruct (Ascii.ascii_dec c d); [|discriminate].
  apply IH in H. lia.
Qed.

Lemma prefix_dropLast p : forall s,
  String.prefix p s = true -> String.prefix (dropLast p) s = true.
Proof.
  induction p as [|c p IH]; intros s H; [exact H|].
  destruct s as [|d s]; [discriminate|].
  simpl in H. destruct (Ascii.ascii_dec c d) as [->|]; [|discriminate].
  destruct p as [|c' p]; [reflexivity|].
  change (dropLast (String d (String c' p))) with (String d (dropLast (String c' p))).
  simpl String.prefix at 1. destruct (Ascii.ascii_dec d d); [|congruence].
  apply IH. exact H.
Qed.

Lemma len_append_letter s key :
  isLetter key = true -> len (String.append s key) = len s + 1.
Proof.
  intros Hk. apply isLetter_inv in Hk as (c & -> & _). unfold len.
  rewrite length_append. simpl. lia.
Qed.

Lemma dropLast_append_letter s key :
  isLetter key = true -> dropLast (String.append s key) = s.
Proof.
  intros Hk. apply isLetter_inv in Hk as (c & -> & _).
  induction s as [|d s IH]; [reflexivity|].
  simpl String.append.
  destruct (String.append s (String c EmptyString)) as [|e t] eqn:E.
  { destruct s; discriminate. }
  change (dropLast (String d (String e t))) with (String d (dropLast (String e t))).
  rewrite IH. reflexivity.
Qed.

(** ** The further invariants along a run *)

Section TidyLemmas.

Context {ML : MathLib} {SL : StringsLib}.

Lemma len_prefix p s : HasPrefix s p = true -> len p <= len s.
Proof. unfold HasPrefix, len. intros H. apply prefix_length in H. lia. Qed.

(** The explosion of a word of one to 48 letters. *)
Lemma createExplosion_exploding x y wordLen g e g' :
  1 <= wordLen <= 48 ->
  createExplosion x y wordLen g = Some (e, g') -> exploding e.
Proof.
  intros Hw He. unfold createExplosion in He. cbv zeta in He.
  assert (Hn : add 8 (mul wordLen 2) = 8 + 2 * wordLen).
  { rewrite mul_small by (rewrite minInt_eq, maxInt_eq; lia).
    rewrite add_small by (rewrite minInt_eq, maxInt_eq; lia). lia. }
  rewrite Hn in He.
  destruct (createExplosion_loop_spec x y wordLen (8 + 2 * wordLen) g
              (Z.to_nat (8 + 2 * wordLen)) 0%nat [])
    as (ps & Hps & Hlen & Hall); [lia | rewrite maxInt_eq; lia |].
  change (after (3 * 0) g) with g in Hps. change (Z.of_nat 0) with 0 in Hps.
  rewrite (bind_Some _ _ _ _ _ Hps) in He. unfold ret in He.
  injection He as <- _. simpl in *. split.
  - unfold len_slice. simpl. rewrite Hlen. lia.
  - apply Forall_lookup. intros k p Hk. apply Hall in Hk.
    destruct Hk as (u & c & l & ch & _ & _ & Hch & _ & Hl & ->).
    split; simpl; [lia | apply list_elem_of_lookup; eauto].
Qed.

(** One tick of decay: what is left is on its way still, one tick older. *)
Lemma decay_exploding k e :
  exploding e -> lasting (decay e) ->
  Forall (fun p => Particle.lifetime p <= k) (Effect.particles e) ->
  exploding (decay e)
  /\ Forall (fun p => Particle.lifetime p <= k - 1) (Effect.particles (decay e)).
Proof.
  intros [Hlen Hfly] Hlast Hk. unfold lasting in Hlast.
  assert (Hall : Forall (fun p => flying p /\ Particle.lifetime p <= k - 1)
                   (Effect.particles (decay e))).
  { unfold decay. simpl. apply Forall_forall. intros q Hq.
    apply list_elem_of_filter in Hq as [Hal Hq].
    apply list_elem_of_fmap in Hq as (p & -> & Hp).
    rewrite Forall_forall in Hfly, Hk.
    destruct (Hfly p Hp) as [Hl Hc]. specialize (Hk p Hp).
    assert (Hsub : sub (Particle.lifetime p) 1 = Particle.lifetime p - 1)
      by (apply sub_small; rewrite minInt_eq, maxInt_eq; lia).
    unfold alive, age in Hal. simpl in Hal. rewrite Hsub in Hal.
    unfold flying, age. simpl. rewrite Hsub.
    split; [split; [lia | exact Hc] | lia]. }
  split; [split|].
  - pose proof (length_filter alive (age <$> Effect.particles e)) as Hle.
    rewrite length_fmap in Hle. unfold decay, len_slice in *. simpl in *. lia.
  - eapply Forall_impl; [exact Hall|]. intros p [Hp _]. exact Hp.
  - eapply Forall_impl; [exact Hall|]. intros p [_ Hp]. exact Hp.
Qed.

Lemma decayed_exploding k es :
  Forall exploding es -> fading k es ->
  Forall exploding (decayed VariantB es) /\ fading (k - 1) (decayed VariantB es).
Proof.
  intros Hes Hk. unfold decayed, fading in *.
  induction es as [|e es IH]; [split; constructor|].
  apply Forall_cons in Hes as [He Hes]. apply Forall_cons in Hk as [Hke Hk].
  destruct (IH Hes Hk) as [IH1 IH2].
  rewrite fmap_cons. destruct (decide (lasting (decay e))) as [Hl|Hl].
  - rewrite filter_cons_True by exact Hl.
    destruct (decay_exploding k e He Hl Hke) as [H1 H2].
    split; constructor; assumption.
  - rewrite filter_cons_False by exact Hl. split; assumption.
Qed.

Lemma exploding_fading es : Forall exploding es -> fading 5 es.
Proof.
  intros H. unfold fading. eapply Forall_impl; [exact H|].
  intros e [_ Hfly]. eapply Forall_impl; [exact Hfly|].
  intros p [Hl _]. lia.
Qed.

(** Nothing that is on its way still has no tick left to live. *)
Lemma faded es : Forall exploding es -> fading 0 es -> es = [].
Proof.
  intros Hes Hk. destruct es as [|e es]; [reflexivity|].
  apply Forall_cons in Hes as [[Hlen Hfly] _]. apply Forall_cons in Hk as [Hk _].
  destruct (Effect.particles e) as [|p ps]; [unfold len_slice in Hlen; simpl in Hlen; lia|].
  apply Forall_cons in Hfly as [[Hl _] _]. apply Forall_cons in Hk as [Hk _]. lia.
Qed.

Lemma Tidy_frame v m m' :
  Tidy v m ->
  Model.words m' = Model.words m -> Model.effects m' = Model.effects m ->
  Model.dict m' = Model.dict m -> Model.input m' = Model.input m ->
  Tidy v m'.
Proof.
  intros [Hc Ht He Hi] Ew Ee Ed Ei.
  split; rewrite ?Ew, ?Ee, ?Ed, ?Ei; assumption.
Qed.

(** A keystroke keeps the further invariants. *)
Lemma keyCase_Tidy v m key g m' c g' :
  Inv v m -> Tidy v m -> keyCase v m key g m' c g' -> Tidy v m'.
Proof.
  intros HI HT Hcase. pose proof HI as [Hd Hl Hg Hp Ho].
  pose proof HT as [Hc Ht He Hi].
  destruct Hcase as [Hgo | Hgo Hq | Hgo Hq Hk | Hgo Hq Hk | Hgo Hk | Hgo Hq Hk
                    | Hgo Hq Hk Hfind | i w Hgo Hq Hk Hfind Hne
                    | i w es g' Hgo Hq Hk Hfind Heq Hes];
    try exact HT.
  - apply (Tidy_frame v m); [exact HT | reflexivity..].
  - destruct Hi as (s & Hs & Hpre).
    split; record_simpl; try assumption.
    exists s. split; [exact Hs|]. apply prefix_dropLast. exact Hpre.
  - destruct Hi as (s & Hs & _).
    split; unfold miss; record_simpl; try assumption.
    exists s. split; [exact Hs|]. destruct s; reflexivity.
  - apply list_find_Some in Hfind as (Hi' & Hpre & _).
    unfold startsWith in Hpre.
    split; unfold track; record_simpl.
    + unfold len_slice in *. rewrite length_insert. exact Hc.
    + apply Forall_insert; [exact Ht|]. unfold typed. simpl.
      pose proof (len_nonneg (String.append (Model.input m) key)).
      apply len_prefix in Hpre. lia.
    + exact He.
    + exists (Word.text w). split; [|exact Hpre].
      rewrite Forall_forall in Hp.
      apply (Hp w). apply list_elem_of_lookup. eauto.
  - apply list_find_Some in Hfind as (Hi' & Hpre & _).
    assert (Hin : w ∈ Model.words m) by (apply list_elem_of_lookup; eauto).
    rewrite Forall_forall in Hp. destruct (Hp w Hin) as (_ & Htext & _).
    destruct (playable_len v _ _ Hd Htext) as [Hlen H12].
    destruct Hi as (s & Hs & _).
    split; record_simpl; rewrite ?scored_words, ?scored_input.
    + pose proof (length_delete (Model.words m) i (mk_is_Some _ _ Hi')) as Hdel.
      unfold len_slice in *. lia.
    + eapply Forall_sublist; [apply sublist_delete | exact Ht].
    + destruct v.
      * destruct Hes as [-> _]. rewrite He. reflexivity.
      * destruct Hes as (e & -> & Hex). apply Forall_app. split; [exact He|].
        constructor; [|constructor].
        eapply createExplosion_exploding; [|exact Hex].
        specialize (H12 eq_refl). rewrite Heq, (len_append_letter _ _ Hk) in *.
        pose proof (len_nonneg (Model.input m)). lia.
    + destruct (scored_frame i w m) as (_ & -> & _).
      exists s. split; [exact Hs|]. destruct s; reflexivity.
Qed.

(** The tick of a game that runs keeps the further invariants. *)
Lemma ticked_Tidy v m new :
  Inv v m -> Tidy v m ->
  (new = [] \/
   exists w, new = [w] /\ spawned (Model.dict m) w
             /\ len_slice (filter onScreen (descend <$> Model.words m)) < cap v) ->
  Tidy v (ticked v m new).
Proof.
  intros HI [Hc Ht He Hi] Hnew.
  destruct (ticked_frame v m new) as (l & o & ->).
  pose proof (length_filter onScreen (descend <$> Model.words m)) as Hle.
  rewrite length_fmap in Hle.
  assert (Ht' : Forall typed (filter onScreen (descend <$> Model.words m))).
  { eapply Forall_sublist; [apply sublist_filter|].
    apply Forall_fmap. eapply Forall_impl; [exact Ht|].
    intros w Hw. exact Hw. }
  split; record_simpl.
  - unfold len_slice in *. rewrite length_app.
    destruct Hnew as [->|(w & -> & _ & Hlt)]; simpl; lia.
  - apply Forall_app. split; [exact Ht'|].
    destruct Hnew as [->|(w & -> & (_ & Hm & _) & _)]; [constructor|].
    constructor; [|constructor]. unfold typed. rewrite Hm.
    pose proof (len_nonneg (Word.text w)). lia.
  - destruct v; [exact He|].
    apply (decayed_exploding 5); [exact He | apply exploding_fading; exact He].
  - exact Hi.
Qed.

Lemma Tidy_initialModel v dict now :
  playable v dict -> Tidy v (initialModel dict now).
Proof.
  intros [Hne _]. split; simpl.
  - destruct v; unfold len_slice, cap; simpl; lia.
  - constructor.
  - destruct v; [reflexivity | constructor].
  - destruct dict as [|s dict]; [congruence|].
    exists s. split; [apply list_elem_of_here | destruct s; reflexivity].
Qed.

Lemma Update_Tidy v m msg g m' c g' :
  Inv v m -> Tidy v m -> Update v m msg g = Some (m', c, g') -> Tidy v m'.
Proof.
  intros HI HT Hu. destruct msg as [key| |w h|]; simpl in Hu.
  - destruct (updateKey_cases v m key g) as (m1 & c1 & g1 & Hk & Hcase).
    rewrite Hu in Hk. injection Hk as <- <- <-.
    eapply keyCase_Tidy; eassumption.
  - destruct (Model.paused m) eqn:Hp.
    { rewrite updateTick_idle in Hu by auto. injection Hu as <- _ _. exact HT. }
    destruct (Model.gameOver m) eqn:Hgo.
    { rewrite updateTick_idle in Hu by auto. injection Hu as <- _ _. exact HT. }
    destruct (updateTick_cases v m g (inv_dict _ _ HI) Hp Hgo)
      as (new & g1 & Ht & Hnew).
    rewrite Hu in Ht. injection Ht as -> _ _.
    apply ticked_Tidy; assumption.
  - unfold ret in Hu. injection Hu as <- _ _.
    apply (Tidy_frame v m); [exact HT | reflexivity..].
  - unfold ret in Hu. injection Hu as <- _ _. exact HT.
Qed.

Lemma reachable_Tidy v m : reachable v m -> Tidy v m.
Proof.
  induction 1 as [r now m Hscan Hstart | m msg g m' c g' Hr IH Hstep].
  - destruct (start_playable v r now m Hscan Hstart) as [Hd ->].
    apply Tidy_initialModel. exact Hd.
  - eapply Update_Tidy; [apply reachable_Inv| |]; eassumption.
Qed.

End TidyLemmas.

(** ** Runs *)

Section Runs.

Context {ML : MathLib} {SL : StringsLib}.

(** A run from a reachable state never panics. *)
Lemma run_reachable v msgs : forall m g,
  reachable v m ->
  exists m' g', run v msgs m g = Some (m', g') /\ reachable v m'.
Proof.
  induction msgs as [|msg msgs IH]; intros m g Hr.
  - exists m, g. split; [reflexivity | exact Hr].
  - destruct (Update_Inv v m msg g (reachable_Inv v m Hr)) as (m1 & c & g1 & Hu & _).
    simpl. rewrite (bind_Some _ _ _ _ _ Hu). simpl.
    apply IH. eapply reachable_Update; eassumption.
Qed.

Lemma run_idle_ticks v m n g :
  Model.paused m = true \/ Model.gameOver m = true ->
  run v (replicate n tickMsg) m g = Some (m, g).
Proof.
  intros H. induction n as [|n IH]; [reflexivity|].
  simpl. rewrite (bind_Some _ _ _ _ _ (updateTick_idle v m g H)). exact IH.
Qed.

Lemma ticked_effects v m new :
  Model.effects (ticked v m new) = decayed v (Model.effects m)
  /\ Model.paused (ticked v m new) = Model.paused m.
Proof. destruct (ticked_frame v m new) as (l & o & ->). split; reflexivity. Qed.

(** Ticks in a row: the explosions fade. *)
Lemma ticks_fade n : forall m g k,
  Inv VariantB m -> Tidy VariantB m -> Model.paused m = false ->
  fading k (Model.effects m) ->
  exists m' g',
    run VariantB (replicate n tickMsg) m g = Some (m', g')
    /\ (Model.gameOver m' = false ->
        fading (k - Z.of_nat n) (Model.effects m')
        /\ Forall exploding (Model.effects m')).
Proof.
  induction n as [|n IH]; intros m g k HI HT Hp Hk.
  - exists m, g. split; [reflexivity|]. intros _.
    rewrite Z.sub_0_r. split; [exact Hk | apply (tidy_effects _ _ HT)].
  - destruct (Model.gameOver m) eqn:Hgo.
    { exists m, g. split; [apply run_idle_ticks; auto|]. congruence. }
    destruct (updateTick_cases VariantB m g (inv_dict _ _ HI) Hp Hgo)
      as (new & g1 & Ht & Hnew).
    destruct (Update_Inv VariantB m tickMsg g HI) as (m1 & c1 & g1' & Hu & HI1).
    simpl in Hu. rewrite Ht in Hu. injection Hu as <- <- <-.
    pose proof (ticked_Tidy VariantB m new HI HT Hnew) as HT1.
    destruct (ticked_effects VariantB m new) as [Ee Ep].
    destruct (decayed_exploding k _ (tidy_effects _ _ HT) Hk) as [_ Hk1].
    destruct (IH (ticked VariantB m new) g1 (k - 1) HI1 HT1) as (m' & g' & Hrun & Hfade).
    { rewrite Ep. exact Hp. }
    { rewrite Ee. exact Hk1. }
    exists m', g'. split.
    + simpl. rewrite (bind_Some _ _ _ _ _ Ht). exact Hrun.
    + intros Hgo'. destruct (Hfade Hgo') as [Hf He]. split; [|exact He].
      replace (k - Z.of_nat (S n)) with (k - 1 - Z.of_nat n) by lia. exact Hf.
Qed.

Lemma StronglySorted_lookup_lt {A} (R : A -> A -> Prop) (l : list A) :
  StronglySorted R l ->
  forall i j a b, (i < j)%nat -> l !! i = Some a -> l !! j = Some b -> R a b.
Proof.
  induction 1 as [|x l Hs IH Hall]; intros i j a b Hij Hi Hj; [discriminate|].
  destruct j as [|j]; [lia|]. simpl in Hj.
  destruct i as [|i]; simpl in Hi.
  - injection Hi as <-. rewrite Forall_forall in Hall. apply Hall.
    apply list_elem_of_lookup. eauto.
  - apply (IH i j); [lia | assumption..].
Qed.

End Runs.

Lemma exploded_reachable : reachable (ML := seriesMath) (SL := asciiStrings) VariantB exploded.
Proof.
  eapply (reachable_run VariantB [KeyMsg "t"] typing (oracle otherDraws)).
  - exact typing_reachable.
  - vm_compute. reflexivity.
Qed.

(** * Further properties of the code *)

Section Further.

Context {ML : MathLib} {SL : StringsLib}.

(** X1. [updateEffects], in any state whatever: its two nested loops, which
    run backwards and delete in place, age every particle by one tick, drop
    the particles with no tick left to live, then the effects with no
    particle left, and keep the others in their order. It never panics,
    draws nothing and changes nothing but the effects; no effect is added. *)
Theorem updateEffects_spec m g :
  updateEffects m g
  = Some (Model.set_effects m (filter lasting (decay <$> Model.effects m)), g)
  /\ Forall (fun e => Effect.particles e <> [] /\ Forall alive (Effect.particles e))
       (filter lasting (decay <$> Model.effects m))
  /\ (length (filter lasting (decay <$> Model.effects m))
      <= length (Model.effects m))%nat.
Proof.
  split; [apply updateEffects_filter|]. split.
  - apply Forall_forall. intros e' He'.
    apply list_elem_of_filter in He' as [Hl He'].
    apply list_elem_of_fmap in He' as (e & -> & _). split.
    + intros Hnil. apply Hl. rewrite Hnil. reflexivity.
    + unfold decay. simpl. apply Forall_forall. intros p Hp.
      apply list_elem_of_filter in Hp as [Hp _]. exact Hp.
  - pose proof (length_filter lasting (decay <$> Model.effects m)) as H.
    rewrite length_fmap in H. exact H.
Qed.

(** X2. In every reachable state [VariantA] has no effect at all, and every
    effect of [VariantB] is an explosion on its way: 1 to 104 particles (an
    entry of the dictionary has 48 bytes at most, whatever [strings.ToLower]
    makes of a line of 12), each with a glyph of [chars] and 1 to 5 ticks to
    live. *)
Theorem effects_on_their_way v m :
  reachable v m ->
  match v with
  | VariantA => Model.effects m = []
  | VariantB =>
      Forall (fun e =>
                1 <= len_slice (Effect.particles e) <= 104
                /\ Forall (fun p => 1 <= Particle.lifetime p <= 5
                                    /\ Particle.char p ∈ chars)
                     (Effect.particles e))
        (Model.effects m)
  end.
Proof.
  intros Hr. exact (tidy_effects _ _ (reachable_Tidy v m Hr)).
Qed.

(** X3. In a reachable game of [VariantB] that is not paused, [n] ticks in
    a row never panic, and if the game is not over after them no particle
    has more than [5 - n] ticks to live: after five ticks every explosion
    is gone. *)
Theorem explosion_fades m g n :
  reachable VariantB m -> Model.paused m = false ->
  exists m' g',
    run VariantB (replicate n tickMsg) m g = Some (m', g')
    /\ (Model.gameOver m' = false ->
        fading (5 - Z.of_nat n) (Model.effects m')
        /\ ((5 <= n)%nat -> Model.effects m' = [])).
Proof.
  intros Hr Hp.
  pose proof (reachable_Inv _ _ Hr) as HI. pose proof (reachable_Tidy _ _ Hr) as HT.
  destruct (ticks_fade n m g 5 HI HT Hp) as (m' & g' & Hrun & Hfade).
  { apply exploding_fading. apply (tidy_effects _ _ HT). }
  exists m', g'. split; [exact Hrun|]. intros Hgo.
  destruct (Hfade Hgo) as [Hf He]. split; [exact Hf|].
  intros Hn. apply faded; [exact He|].
  unfold fading in *. eapply Forall_impl; [exact Hf|]. intros e Hps.
  eapply Forall_impl; [exact Hps|]. intros p Hl. simpl in Hl. lia.
Qed.

(** X4. In every reachable state the [matched] of a word counts letters of
    that word: it is at least 0 and at most [len(text)]. *)
Theorem matched_within_text v m :
  reachable v m ->
  Forall (fun w => 0 <= Word.matched w <= len (Word.text w)) (Model.words m).
Proof.
  intros Hr. exact (tidy_typed _ _ (reachable_Tidy v m Hr)).
Qed.

(** X5. In every reachable state there are at most [cap] falling words (10
    in [VariantA], 8 in [VariantB]); each is a word of the dictionary, in a
    row of the screen and at a column that is not negative; and the words
    stand in the slice from the lowest to the highest, no two in the same
    row. *)
Theorem words_in_rows_of_their_own v m :
  reachable v m ->
  len_slice (Model.words m) <= cap v
  /\ Forall (fun w => Word.text w ∈ Model.dict m
                      /\ 0 <= Word.y w < gameHeight /\ 0 <= Word.x w)
       (Model.words m)
  /\ forall i j wi wj,
       (i < j)%nat ->
       Model.words m !! i = Some wi -> Model.words m !! j = Some wj ->
       Word.y wj < Word.y wi.
Proof.
  intros Hr.
  pose proof (reachable_Inv _ _ Hr) as [_ _ _ Hp Ho].
  pose proof (reachable_Tidy _ _ Hr) as [Hc _ _ _].
  split; [exact Hc|]. split.
  - eapply Forall_impl; [exact Hp|]. intros w (Hy & Ht & Hx). tauto.
  - intros i j wi wj Hij Hi Hj.
    exact (StronglySorted_lookup_lt below _ Ho i j wi wj Hij Hi Hj).
Qed.

(** X6. In every reachable state the input buffer is the beginning of a
    word of the dictionary (the empty buffer is): a letter that fits no
    falling word is never kept. In [VariantB] the buffer is therefore never
    longer than 48 bytes, the most an entry of its dictionary has. *)
Theorem input_is_prefix v m :
  reachable v m ->
  (exists s, s ∈ Model.dict m /\ HasPrefix s (Model.input m) = true)
  /\ (v = VariantB -> len (Model.input m) <= 48).
Proof.
  intros Hr.
  pose proof (reachable_Inv _ _ Hr) as [Hd _ _ _ _].
  destruct (tidy_input _ _ (reachable_Tidy v m Hr)) as (s & Hs & Hpre).
  split; [eauto|]. intros Hv.
  destruct (playable_len v _ _ Hd Hs) as [_ H12].
  apply len_prefix in Hpre. specialize (H12 Hv). lia.
Qed.

(** X7. Whatever the messages and the random draws, a run of the event loop
    from a reachable state never panics, and ends in a reachable state. *)
Theorem run_never_panics v m msgs g :
  reachable v m ->
  exists m' g', run v msgs m g = Some (m', g') /\ reachable v m'.
Proof. intros Hr. apply run_reachable. exact Hr. Qed.

End Further.

(** X2, witness: [exploded]. *)
Lemma effects_on_their_way_witness :
  Forall (fun e =>
            1 <= len_slice (Effect.particles e) <= 104
            /\ Forall (fun p => 1 <= Particle.lifetime p <= 5
                                /\ Particle.char p ∈ chars)
                 (Effect.particles e))
    (Model.effects exploded).
Proof.
  apply (effects_on_their_way (ML := seriesMath) (SL := asciiStrings) VariantB exploded).
  exact exploded_reachable.
Defined.

(** X3, witness: five ticks after [exploded]. *)
Lemma explosion_fades_witness :
  exists m' g',
    run (ML := seriesMath) VariantB (replicate 5 tickMsg) exploded (oracle []) = Some (m', g')
    /\ (Model.gameOver m' = false ->
        fading (5 - Z.of_nat 5) (Model.effects m')
        /\ ((5 <= 5)%nat -> Model.effects m' = [])).
Proof.
  apply (explosion_fades (ML := seriesMath) (SL := asciiStrings) exploded (oracle []) 5).
  - exact exploded_reachable.
  - reflexivity.
Defined.

(** X4, witness: [typing]. *)
Lemma matched_within_text_witness :
  Forall (fun w => 0 <= Word.matched w <= len (Word.text w)) (Model.words typing).
Proof.
  apply (matched_within_text (ML := seriesMath) (SL := asciiStrings) VariantB typing).
  exact typing_reachable.
Defined.

(** X5, witness: [shadowed]. *)
Lemma words_in_rows_of_their_own_witness :
  len_slice (Model.words shadowed) <= cap VariantB
  /\ Forall (fun w => Word.text w ∈ Model.dict shadowed
                      /\ 0 <= Word.y w < gameHeight /\ 0 <= Word.x w)
       (Model.words shadowed)
  /\ forall i j wi wj,
       (i < j)%nat ->
       Model.words shadowed !! i = Some wi -> Model.words shadowed !! j = Some wj ->
       Word.y wj < Word.y wi.
Proof.
  apply (words_in_rows_of_their_own (ML := seriesMath) (SL := asciiStrings) VariantB shadowed).
  exact shadowed_reachable.
Defined.

(** X6, witness: [typing]. *)
Lemma input_is_prefix_witness :
  (exists s, s ∈ Model.dict typing /\ HasPrefix s (Model.input typing) = true)
  /\ (VariantB = VariantB -> len (Model.input typing) <= 48).
Proof.
  apply (input_is_prefix (ML := seriesMath) (SL := asciiStrings) VariantB typing).
  exact typing_reachable.
Defined.

(** X7, witness: [started], then a tick, a letter and a tick. *)
Lemma run_never_panics_witness :
  exists m' g',
    run (ML := seriesMath) VariantB [tickMsg; KeyMsg "a"; tickMsg] started (oracle [])
    = Some (m', g')
    /\ reachable (ML := seriesMath) (SL := asciiStrings) VariantB m'.
Proof.
  apply (run_never_panics (ML := seriesMath) VariantB started).
  exact started_reachable.
Defined.

(** ** The counters *)

Section Counters.

Context {ML : MathLib} {SL : StringsLib}.

Lemma Counted_frame n m m' :
  Counted n m ->
  Model.wordsTyped m' = Model.wordsTyped m -> Model.level m' = Model.level m ->
  Model.score m' = Model.score m ->
  Counted n m'.
Proof. intros [Hw Hl Hs] Ew El Es. split; rewrite ?Ew, ?El, ?Es; assumption. Qed.

Lemma Counted_le n n' m : Counted n m -> n <= n' -> Counted n' m.
Proof. intros [Hw Hl Hs] Hle. split; try assumption. lia. Qed.

(** A HIT on a word of the dictionary, among the first ten million
    messages: no counter wraps around. *)
Lemma scored_Counted n i w m :
  Counted n m -> n < 10000000 -> 1 <= len (Word.text w) <= maxEntry VariantA ->
  Counted (n + 1) (scored i w m).
Proof.
  intros [Hw Hl Hs] Hn Hlen. unfold maxEntry, UTFMax, MaxScanTokenSize in *.
  set (wt := Model.wordsTyped m) in *. set (lv := Model.level m) in *.
  set (sc := Model.score m) in *. set (L := len (Word.text w)) in *.
  pose proof (Z.div_mod wt 15 ltac:(lia)) as Hdm.
  pose proof (Z.mod_pos_bound wt 15 ltac:(lia)) as Hmb.
  pose proof (Z.div_mod (wt + 1) 15 ltac:(lia)) as Hdm'.
  pose proof (Z.mod_pos_bound (wt + 1) 15 ltac:(lia)) as Hmb'.
  assert (Hlv : 1 <= lv <= 666667) by lia.
  assert (Hwl : 0 <= wt * lv <= 9999999 * 666667) by nia.
  assert (HLl : L * lv <= 262144 * lv /\ lv <= L * lv) by nia.
  assert (E1 : add wt 1 = wt + 1)
    by (apply add_small; rewrite minInt_eq, maxInt_eq; lia).
  assert (E2 : add lv 1 = lv + 1)
    by (apply add_small; rewrite minInt_eq, maxInt_eq; lia).
  assert (E3 : mul L (lv + 1) = L * (lv + 1))
    by (apply mul_small; rewrite minInt_eq, maxInt_eq; lia).
  assert (E4 : add sc (L * (lv + 1)) = sc + L * (lv + 1))
    by (apply add_small; rewrite minInt_eq, maxInt_eq; lia).
  unfold scored. record_simpl. fold wt lv sc L.
  rewrite E1, E2, E3, E4.
  rewrite Z.rem_mod_nonneg by lia.
  destruct ((wt + 1) mod 15 =? 0) eqn:E;
    [apply Z.eqb_eq in E | apply Z.eqb_neq in E];
    split; record_simpl; fold wt lv sc L;
    rewrite ?E1, ?E2, ?E3, ?E4; unfold maxEntry, UTFMax, MaxScanTokenSize; lia.
Qed.

Lemma keyCase_Counted n v m key g m' c g' :
  Inv v m -> Counted n m -> n < 10000000 ->
  keyCase v m key g m' c g' -> Counted (n + 1) m'.
Proof.
  intros HI HC Hn Hcase. pose proof HI as [Hd _ _ Hp _].
  destruct Hcase as [Hgo | Hgo Hq | Hgo Hq Hk | Hgo Hq Hk | Hgo Hk | Hgo Hq Hk
                    | Hgo Hq Hk Hfind | i w Hgo Hq Hk Hfind Hne
                    | i w es g' Hgo Hq Hk Hfind Heq Hes];
    try (apply (Counted_le n); [|lia];
         apply (Counted_frame n m); [exact HC | reflexivity..]).
  apply list_find_Some in Hfind as (Hi' & _ & _).
  assert (Hin : w ∈ Model.words m) by (apply list_elem_of_lookup; eauto).
  rewrite Forall_forall in Hp. destruct (Hp w Hin) as (_ & Htext & _).
  destruct (playable_len v _ _ Hd Htext) as [Hlen _].
  apply (Counted_frame (n + 1) (scored i w m)); [|reflexivity..].
  apply scored_Counted; [exact HC | exact Hn |].
  rewrite Heq, (len_append_letter _ _ Hk) in *.
  pose proof (len_nonneg (Model.input m)). unfold maxEntry. lia.
Qed.

Lemma Update_Counted n v m msg g m' c g' :
  Inv v m -> Counted n m -> n < 10000000 ->
  Update v m msg g = Some (m', c, g') -> Counted (n + 1) m'.
Proof.
  intros HI HC Hn Hu. destruct msg as [key| |w h|]; simpl in Hu.
  - destruct (updateKey_cases v m key g) as (m1 & c1 & g1 & Hk & Hcase).
    rewrite Hu in Hk. injection Hk as <- <- <-.
    eapply keyCase_Counted; eassumption.
  - apply (Counted_le n); [|lia].
    destruct (Model.paused m) eqn:Hp.
    { rewrite updateTick_idle in Hu by auto. injection Hu as <- _ _. exact HC. }
    destruct (Model.gameOver m) eqn:Hgo.
    { rewrite updateTick_idle in Hu by auto. injection Hu as <- _ _. exact HC. }
    destruct (updateTick_cases v m g (inv_dict _ _ HI) Hp Hgo)
      as (new & g1 & Ht & _).
    rewrite Hu in Ht. injection Ht as -> _ _.
    destruct (ticked_frame v m new) as (l & o & ->).
    apply (Counted_frame n m); [exact HC | reflexivity..].
  - unfold ret in Hu. injection Hu as <- _ _.
    apply (Counted_le n); [|lia].
    apply (Counted_frame n m); [exact HC | reflexivity..].
  - unfold ret in Hu. injection Hu as <- _ _.
    apply (Counted_le n); [exact HC | lia].
Qed.

Lemma run_Counted v msgs : forall n m g,
  Inv v m -> Counted n m -> n + Z.of_nat (length msgs) <= 10000000 ->
  exists m' g',
    run v msgs m g = Some (m', g') /\ Counted (n + Z.of_nat (length msgs)) m'.
Proof.
  induction msgs as [|msg msgs IH]; intros n m g HI HC Hn.
  - exists m, g. split; [reflexivity|]. simpl. rewrite Z.add_0_r. exact HC.
  - simpl length in *.
    destruct (Update_Inv v m msg g HI) as (m1 & c & g1 & Hu & HI1).
    pose proof (Update_Counted n v m msg g m1 c g1 HI HC ltac:(lia) Hu) as HC1.
    destruct (IH (n + 1) m1 g1 HI1 HC1 ltac:(lia)) as (m' & g' & Hrun & HC').
    exists m', g'. split.
    + simpl. rewrite (bind_Some _ _ _ _ _ Hu). exact Hrun.
    + replace (n + Z.of_nat (S (length msgs)))
        with (n + 1 + Z.of_nat (length msgs)) by lia.
      exact HC'.
Qed.

(** Only the first word of the slice can reach the bottom. *)
Lemma fallen_first dict (ws : list word) :
  Forall (placed dict) ws -> StronglySorted below ws ->
  filter fallen (descend <$> ws) <> [] ->
  exists w ws', ws = w :: ws' /\ Word.y w = gameHeight - 1.
Proof.
  intros Hp Ho Hne. destruct ws as [|w ws]; [contradiction|].
  exists w, ws. split; [reflexivity|].
  apply Forall_cons in Hp as [Hw Hp].
  apply StronglySorted_inv in Ho as [_ Hlow].
  assert (Hnone : filter fallen (descend <$> ws) = []).
  { clear -Hw Hp Hlow. induction ws as [|w' ws IH]; [reflexivity|].
    apply Forall_cons in Hp as [Hw' Hp]. apply Forall_cons in Hlow as [Hlt Hlow].
    rewrite fmap_cons, filter_cons_False; [auto|].
    rewrite (descend_row dict w' Hw'). unfold fallen, below in *. simpl.
    destruct Hw as (Hy & _). lia. }
  rewrite fmap_cons in Hne. destruct (decide (fallen (descend w))) as [Hf|Hf].
  - rewrite (descend_row dict w Hw) in Hf. unfold fallen in Hf. simpl in Hf.
    destruct Hw as (Hy & _). lia.
  - rewrite filter_cons_False in Hne by exact Hf. contradiction.
Qed.

End Counters.

(** ** The commands *)

Section Commands.

Context {ML : MathLib} {SL : StringsLib}.

Lemma key_exists key (P : string -> Prop) :
  (exists k, KeyMsg key = KeyMsg k /\ P k) <-> P key.
Proof.
  split; [|eauto]. intros (k & E & H). injection E as <-. exact H.
Qed.

Lemma key_named key name : KeyMsg key = KeyMsg name <-> key = name.
Proof. split; [intros E; injection E; auto | intros ->; reflexivity]. Qed.

Lemma updateKey_ctrl_c v m g m' c g' :
  updateKey v m "ctrl+c" g = Some (m', c, g') -> c = Quit.
Proof.
  unfold updateKey. destruct (Model.gameOver m), v; simpl; intros H;
    injection H as _ <- _; reflexivity.
Qed.

Lemma updateKey_q v m g m' c g' :
  updateKey v m "q" g = Some (m', c, g') ->
  c = if match v with VariantA => true | VariantB => false end || Model.gameOver m
      then Quit else nilCmd.
Proof.
  intros H.
  destruct (Model.gameOver m) eqn:Hgo.
  { unfold updateKey in H. rewrite Hgo in H. simpl in H.
    injection H as _ <- _. rewrite orb_true_r. reflexivity. }
  destruct v.
  - unfold updateKey in H. rewrite Hgo in H. simpl in H.
    injection H as _ <- _. reflexivity.
  - rewrite updateKey_letter in H by (assumption || reflexivity).
    unfold bind, ret in H.
    destruct (matchWord VariantB _ g) as [[m1 g1]|]; [|discriminate].
    injection H as _ <- _. reflexivity.
Qed.

Lemma updateKey_ctrl_l v m g m' c g' :
  updateKey v m "ctrl+l" g = Some (m', c, g') ->
  c = if Model.gameOver m then nilCmd else ClearScreen.
Proof.
  unfold updateKey. destruct (Model.gameOver m), v; simpl; intros H;
    injection H as _ <- _; reflexivity.
Qed.

Lemma updateKey_other v m key g m' c g' :
  updateKey v m key g = Some (m', c, g') ->
  key <> "ctrl+c"%string -> key <> "q"%string -> key <> "ctrl+l"%string ->
  c = nilCmd.
Proof.
  intros H Hcc Hq Hl.
  apply String.eqb_neq in Hcc, Hq, Hl.
  unfold updateKey, quitKey in H. rewrite Hcc, Hq, Hl in H.
  destruct (Model.gameOver m); [simpl in H; injection H as _ <- _; reflexivity|].
  assert (Hquit : (match v with VariantA => false || false | VariantB => false end) = false)
    by (destruct v; reflexivity).
  rewrite Hquit in H.
  destruct (pauseKey v key); [injection H as _ <- _; reflexivity|].
  destruct (String.eqb key "backspace"); [injection H as _ <- _; reflexivity|].
  destruct (isLetter key); [|injection H as _ <- _; reflexivity].
  unfold bind, ret in H.
  destruct (matchWord v _ g) as [[m1 g1]|]; [|discriminate].
  injection H as _ <- _. reflexivity.
Qed.

Lemma updateTick_tickCmd v m g m' c g' :
  updateTick v m g = Some (m', c, g') -> c = tickCmd.
Proof.
  unfold updateTick. destruct (negb _ && negb _).
  - unfold bind, ret. destruct (moveWords m g) as [[m1 g1]|]; [|discriminate].
    cbv beta.
    destruct (match v with VariantA => _ | VariantB => updateEffects m1 end g1)
      as [[m2 g2]|]; [|discriminate].
    destruct (maybeAddWord v m2 g2) as [[m3 g3]|]; [|discriminate].
    intros H. injection H as _ <- _. reflexivity.
  - intros H. injection H as _ <- _. reflexivity.
Qed.

End Commands.

Section Further2.

Context {ML : MathLib} {SL : StringsLib}.

(** X8. Over the first ten million messages of a game, whatever they are
    and whatever is drawn: the event loop never panics, no counter wraps
    around, [wordsTyped] is at most the number of messages, the level is
    [1 + wordsTyped / 15], and the score is at least twice [wordsTyped] and
    at most [262144 * wordsTyped * (level + 1)]: an entry of the dictionary
    has at most [UTFMax] bytes for each of the 65536 of a line. *)
Theorem counters_of_a_run v r now m0 msgs g :
  scannable r -> start v r now = Some m0 ->
  Z.of_nat (length msgs) <= 10000000 ->
  exists m g',
    run v msgs m0 g = Some (m, g')
    /\ 0 <= Model.wordsTyped m <= Z.of_nat (length msgs)
    /\ Model.level m = 1 + Model.wordsTyped m / 15
    /\ 2 * Model.wordsTyped m <= Model.score m
         <= 262144 * Model.wordsTyped m * (Model.level m + 1).
Proof.
  intros Hscan Hstart Hlen.
  destruct (start_playable v r now m0 Hscan Hstart) as [Hd Hm0].
  assert (HI : Inv v m0) by (rewrite Hm0; apply Inv_initialModel; exact Hd).
  assert (HC : Counted 0 m0).
  { rewrite Hm0. split; simpl; [lia | reflexivity | lia]. }
  destruct (run_Counted v msgs 0 m0 g HI HC ltac:(lia)) as (m & g' & Hrun & [Hw Hl Hs]).
  exists m, g'. split; [exact Hrun|]. rewrite Z.add_0_l in Hw.
  split; [exact Hw|]. split; [exact Hl | exact Hs].
Qed.

(** X9. A message costs at most one life, and only a tick of a game that
    runs costs one: then the first word of the slice was in the last row of
    the screen. (The words being in rows of their own, two words never reach
    the bottom on the same tick.) *)
Theorem one_life_at_a_time v m msg g m' c g' :
  reachable v m -> Update v m msg g = Some (m', c, g') ->
  Model.lives m' = Model.lives m
  \/ (Model.lives m' = Model.lives m - 1
      /\ msg = tickMsg /\ Model.paused m = false /\ Model.gameOver m = false
      /\ exists w ws, Model.words m = w :: ws /\ Word.y w = gameHeight - 1).
Proof.
  intros Hr Hu. pose proof (reachable_Inv _ _ Hr) as HI.
  destruct msg as [key| |w h|]; simpl in Hu.
  - left. destruct (updateKey_frame v m key g) as (m1 & c1 & g1 & Hk & El & _).
    rewrite Hu in Hk. injection Hk as <- _ _. exact El.
  - destruct (Model.paused m) eqn:Hp.
    { rewrite updateTick_idle in Hu by auto. injection Hu as <- _ _. left. reflexivity. }
    destruct (Model.gameOver m) eqn:Hgo.
    { rewrite updateTick_idle in Hu by auto. injection Hu as <- _ _. left. reflexivity. }
    destruct (updateTick_playing v m g HI Hp Hgo)
      as (m1 & g1 & new & Ht & _ & Hl & _).
    rewrite Hu in Ht. injection Ht as <- _.
    pose proof (fallen_at_most_one _ _ (inv_placed _ _ HI) (inv_order _ _ HI)) as Hk.
    destruct (filter fallen (descend <$> Model.words m)) as [|f fs] eqn:Ef.
    + left. rewrite Hl. simpl. lia.
    + right. split; [rewrite Hl; simpl in *; lia|].
      repeat split.
      apply (fallen_first (Model.dict m));
        [apply (inv_placed _ _ HI) | apply (inv_order _ _ HI) |].
      rewrite Ef. discriminate.
  - unfold ret in Hu. injection Hu as <- _ _. left. reflexivity.
  - unfold ret in Hu. injection Hu as <- _ _. left. reflexivity.
Qed.

(** X10. The command [Update] returns. The next tick is scheduled exactly
    on a tick, whether the game is paused, over or neither. [ctrl+l] clears
    the screen exactly while the game is not over. The program quits on
    [ctrl+c], and on [q] in [VariantA] or once the game is over; in a
    [VariantB] game that runs, [q] is a letter like another. *)
Theorem Update_command v m msg g m' c g' :
  Update v m msg g = Some (m', c, g') ->
  (c = tickCmd <-> msg = tickMsg)
  /\ (c = ClearScreen <-> msg = KeyMsg "ctrl+l" /\ Model.gameOver m = false)
  /\ (c = Quit <->
      exists key, msg = KeyMsg key
                  /\ (key = "ctrl+c"%string
                      \/ key = "q"%string
                         /\ (v = VariantA \/ Model.gameOver m = true))).
Proof.
  intros Hu. destruct msg as [key| |w h|]; simpl in Hu.
  - rewrite key_exists, key_named.
    split; [split; [|discriminate]|].
    { intros ->. destruct (String.eqb_spec key "ctrl+c") as [->|Hcc];
        [|destruct (String.eqb_spec key "q") as [->|Hq];
          [|destruct (String.eqb_spec key "ctrl+l") as [->|Hl]]].
      - apply updateKey_ctrl_c in Hu. discriminate.
      - apply updateKey_q in Hu. destruct (_ || _); discriminate.
      - apply updateKey_ctrl_l in Hu. destruct (Model.gameOver m); discriminate.
      - apply updateKey_other in Hu; [discriminate | assumption..]. }
    destruct (String.eqb_spec key "ctrl+c") as [->|Hcc];
      [|destruct (String.eqb_spec key "q") as [->|Hq];
        [|destruct (String.eqb_spec key "ctrl+l") as [->|Hl]]].
    + apply updateKey_ctrl_c in Hu. subst c.
      split; [split; [discriminate | intros [E _]; discriminate]|].
      split; auto.
    + apply updateKey_q in Hu. subst c.
      split; [destruct (_ || _); (split; [discriminate | intros [E _]; discriminate])|].
      destruct v, (Model.gameOver m); simpl; split; intros H;
        try reflexivity; try discriminate; auto.
      destruct H as [H|[_ [H|H]]]; discriminate.
    + apply updateKey_ctrl_l in Hu. subst c.
      destruct (Model.gameOver m); split; split; intros H;
        try reflexivity; try discriminate; auto.
      * destruct H; discriminate.
      * destruct H as [H|[H _]]; discriminate.
      * destruct H as [H|[H _]]; discriminate.
    + apply updateKey_other in Hu; [|assumption..]. subst c.
      split; [split; [discriminate | intros [E _]; contradiction]|].
      split; [discriminate|]. intros [H|[H _]]; contradiction.
  - apply updateTick_tickCmd in Hu. subst c.
    split; [split; reflexivity|].
    split; [split; [discriminate | intros [E _]; discriminate]|].
    split; [discriminate | intros (k & E & _); discriminate].
  - unfold ret in Hu. injection Hu as _ <- _.
    split; [split; discriminate|].
    split; [split; [discriminate | intros [E _]; discriminate]|].
    split; [discriminate | intros (k & E & _); discriminate].
  - unfold ret in Hu. injection Hu as _ <- _.
    split; [split; discriminate|].
    split; [split; [discriminate | intros [E _]; discriminate]|].
    split; [discriminate | intros (k & E & _); discriminate].
Qed.

End Further2.

(** X8, witness: the game on [catFile], a tick and the word typed. *)
Lemma counters_of_a_run_witness :
  exists m g',
    run (ML := seriesMath) VariantB
      [tickMsg; KeyMsg "c"; KeyMsg "a"; KeyMsg "t"]
      (initialModel ["cat"%string] 0) (oracle ([0; 7]%N ++ otherDraws))
    = Some (m, g')
    /\ 0 <= Model.wordsTyped m
         <= Z.of_nat (length [tickMsg; KeyMsg "c"; KeyMsg "a"; KeyMsg "t"])
    /\ Model.level m = 1 + Model.wordsTyped m / 15
    /\ 2 * Model.wordsTyped m <= Model.score m
         <= 262144 * Model.wordsTyped m * (Model.level m + 1).
Proof.
  apply (counters_of_a_run (ML := seriesMath) (SL := asciiStrings) VariantB catFile 0
           (initialModel ["cat"%string] 0)).
  - exact catFile_scannable.
  - reflexivity.
  - simpl. lia.
Defined.

(** X9, witness: the tick of [lastLife]. *)
Lemma one_life_at_a_time_witness :
  Model.lives lastLifeAfter = Model.lives lastLife
  \/ (Model.lives lastLifeAfter = Model.lives lastLife - 1
      /\ tickMsg = tickMsg
      /\ Model.paused lastLife = false /\ Model.gameOver lastLife = false
      /\ exists w ws, Model.words lastLife = w :: ws /\ Word.y w = gameHeight - 1).
Proof.
  apply (one_life_at_a_time (ML := seriesMath) (SL := asciiStrings) VariantB lastLife tickMsg
           (oracle [0; 40]%N) lastLifeAfter tickCmd
           (advance (advance (oracle [0; 40]%N)))).
  - exact lastLife_reachable.
  - reflexivity.
Defined.

(** X10, witness: [q] in a game of [VariantB] that runs. *)
Lemma Update_command_witness :
  (nilCmd = tickCmd <-> KeyMsg "q" = tickMsg)
  /\ (nilCmd = ClearScreen
      <-> KeyMsg "q" = KeyMsg "ctrl+l" /\ Model.gameOver started = false)
  /\ (nilCmd = Quit <->
      exists key, KeyMsg "q" = KeyMsg key
                  /\ (key = "ctrl+c"%string
                      \/ key = "q"%string
                         /\ (VariantB = VariantA \/ Model.gameOver started = true))).
Proof.
  apply (Update_command (ML := seriesMath) VariantB started (KeyMsg "q") (oracle [])
           startedAfter nilCmd (oracle [])).
  reflexivity.
Defined.

(** ** What a keystroke does not read *)

Section Unread.

Context {ML : MathLib} {SL : StringsLib}.

Lemma hit_set_paused v i w m b g :
  hit v i w (Model.set_paused m b) g
  = (fun r => (Model.set_paused r.1 b, r.2)) <$> hit v i w m g.
Proof.
  unfold hit, bind, ret. destruct v; record_simpl.
  - destruct (_ =? 0); reflexivity.
  - destruct (createExplosion _ _ _ g) as [[e g1]|]; [|reflexivity].
    record_simpl. destruct (_ =? 0); reflexivity.
Qed.

Lemma matchWord_set_paused v m b g :
  Model.input m <> EmptyString ->
  matchWord v (Model.set_paused m b) g
  = (fun r => (Model.set_paused r.1 b, r.2)) <$> matchWord v m g.
Proof.
  intros Hin. rewrite !matchWord_spec by exact Hin. record_simpl.
  destruct (list_find _ (Model.words m)) as [[i w]|]; [|reflexivity].
  destruct (String.eqb _ _); [|reflexivity].
  apply (hit_set_paused v i _ (track i w m)).
Qed.

Lemma updateKey_set_paused v m key g b :
  pauseKey v key = false ->
  updateKey v (Model.set_paused m b) key g
  = (fun r => (Model.set_paused r.1.1 b, r.1.2, r.2)) <$> updateKey v m key g.
Proof.
  intros Hp. unfold updateKey. rewrite Hp. record_simpl.
  destruct (Model.gameOver m).
  { destruct (_ || _); reflexivity. }
  destruct (quitKey v key); [reflexivity|].
  destruct (String.eqb key "ctrl+l"); [reflexivity|].
  destruct (String.eqb key "backspace").
  { destruct (0 <? len (Model.input m)); reflexivity. }
  destruct (isLetter key) eqn:Hk; [|reflexivity].
  unfold bind.
  change (Model.set_input (Model.set_paused m b) (String.append (Model.input m) key))
    with (Model.set_paused (Model.set_input m (String.append (Model.input m) key)) b).
  rewrite matchWord_set_paused by (apply append_letter_nonempty; exact Hk).
  destruct (matchWord v _ g) as [[m1 g1]|]; reflexivity.
Qed.

Lemma hit_set_size v i w0 m w h g :
  hit v i w0 (Model.set_size m w h) g
  = (fun r => (Model.set_size r.1 w h, r.2)) <$> hit v i w0 m g.
Proof.
  unfold hit, bind, ret. destruct v; record_simpl.
  - destruct (_ =? 0); reflexivity.
  - destruct (createExplosion _ _ _ g) as [[e g1]|]; [|reflexivity].
    record_simpl. destruct (_ =? 0); reflexivity.
Qed.

Lemma matchWord_set_size v m w h g :
  Model.input m <> EmptyString ->
  matchWord v (Model.set_size m w h) g
  = (fun r => (Model.set_size r.1 w h, r.2)) <$> matchWord v m g.
Proof.
  intros Hin. rewrite !matchWord_spec by exact Hin. record_simpl.
  destruct (list_find _ (Model.words m)) as [[i w0]|]; [|reflexivity].
  destruct (String.eqb _ _); [|reflexivity].
  apply (hit_set_size v i _ (track i w0 m)).
Qed.

Lemma updateKey_set_size v m key g w h :
  updateKey v (Model.set_size m w h) key g
  = (fun r => (Model.set_size r.1.1 w h, r.1.2, r.2)) <$> updateKey v m key g.
Proof.
  unfold updateKey. record_simpl.
  destruct (Model.gameOver m).
  { destruct (_ || _); reflexivity. }
  destruct (quitKey v key); [reflexivity|].
  destruct (String.eqb key "ctrl+l"); [reflexivity|].
  destruct (pauseKey v key); [reflexivity|].
  destruct (String.eqb key "backspace").
  { destruct (0 <? len (Model.input m)); reflexivity. }
  destruct (isLetter key) eqn:Hk; [|reflexivity].
  unfold bind.
  change (Model.set_input (Model.set_size m w h) (String.append (Model.input m) key))
    with (Model.set_size (Model.set_input m (String.append (Model.input m) key)) w h).
  rewrite matchWord_set_size by (apply append_letter_nonempty; exact Hk).
  destruct (matchWord v _ g) as [[m1 g1]|]; reflexivity.
Qed.

Lemma iter_loseLife_set_size k m w h :
  Nat.iter k loseLife (Model.set_size m w h)
  = Model.set_size (Nat.iter k loseLife m) w h.
Proof.
  induction k as [|k IH]; [reflexivity|].
  simpl. rewrite IH. unfold loseLife. record_simpl.
  destruct (_ <=? 0); reflexivity.
Qed.

Lemma maybeAddWord_set_size v m w h g :
  maybeAddWord v (Model.set_size m w h) g
  = (fun r => (Model.set_size r.1 w h, r.2)) <$> maybeAddWord v m g.
Proof.
  unfold maybeAddWord. record_simpl.
  destruct (cap v <=? _); [reflexivity|].
  unfold bind.
  assert (Hs : shouldSpawn v (Model.set_size m w h) g = shouldSpawn v m g)
    by (destruct v; reflexivity).
  rewrite Hs. destruct (shouldSpawn v m g) as [[[|] g1]|]; try reflexivity.
  unfold spawn, bind, ret. record_simpl.
  destruct (Intn _ g1) as [[k g2]|]; [|reflexivity].
  destruct (index _ _ g2) as [[s g3]|]; [|reflexivity].
  cbv zeta. destruct (Intn _ g3) as [[x g4]|]; reflexivity.
Qed.

Lemma updateTick_set_size v m w h g :
  updateTick v (Model.set_size m w h) g
  = (fun r => (Model.set_size r.1.1 w h, r.1.2, r.2)) <$> updateTick v m g.
Proof.
  unfold updateTick. record_simpl.
  destruct (negb _ && negb _); [|reflexivity].
  rewrite (bind_Some _ _ _ _ _ (moveWords_spec m g)).
  rewrite (bind_Some _ _ _ _ _ (moveWords_spec (Model.set_size m w h) g)).
  record_simpl.
  set (k := length _). set (ws := filter onScreen _).
  change (Model.set_words (Model.set_size m w h) ws)
    with (Model.set_size (Model.set_words m ws) w h).
  rewrite iter_loseLife_set_size.
  set (m1 := Nat.iter k loseLife (Model.set_words m ws)).
  assert (H2 : forall m0 : model,
             match v with VariantA => ret m0 | VariantB => updateEffects m0 end g
             = Some (Model.set_effects m0 (decayed v (Model.effects m0)), g)).
  { intros m0. destruct v; [reflexivity | apply updateEffects_filter]. }
  rewrite (bind_Some _ _ _ _ _ (H2 m1)).
  rewrite (bind_Some _ _ _ _ _ (H2 (Model.set_size m1 w h))).
  record_simpl.
  change (Model.set_effects (Model.set_size m1 w h) (decayed v (Model.effects m1)))
    with (Model.set_size (Model.set_effects m1 (decayed v (Model.effects m1))) w h).
  unfold bind. rewrite maybeAddWord_set_size.
  destruct (maybeAddWord v _ g) as [[m3 g3]|]; reflexivity.
Qed.

End Unread.

Section Further3.

Context {ML : MathLib} {SL : StringsLib}.

Lemma maybeAddWord_frame v m g m' g' :
  maybeAddWord v m g = Some (m', g') -> exists ws, m' = Model.set_words m ws.
Proof.
  unfold maybeAddWord. destruct (cap v <=? _).
  { intros H. injection H as <- _. exists (Model.words m). reflexivity. }
  unfold bind. destruct (shouldSpawn v m g) as [[[|] g1]|]; [| |discriminate].
  - unfold spawn, bind, ret.
    destruct (Intn _ g1) as [[k g2]|]; [|discriminate].
    destruct (index _ _ g2) as [[s g3]|]; [|discriminate].
    cbv zeta. destruct (Intn _ g3) as [[x g4]|]; [|discriminate].
    intros H. injection H as <- _. eexists. reflexivity.
  - intros H. injection H as <- _. exists (Model.words m). reflexivity.
Qed.


(** X11. With an empty dictionary the spawn panics: [rand.Intn(0)]. A
    [VariantB] game with no word, which must spawn on its next tick, then
    panics on that tick: this is what [main] exits for when the dictionary
    is empty. *)
Theorem empty_dictionary_panics m g :
  Model.dict m = [] ->
  spawn m g = None
  /\ (Model.paused m = false -> Model.gameOver m = false ->
      Model.words m = [] -> 0 <= Model.level m <= maxInt ->
      Update VariantB m tickMsg g = None).
Proof.
  intros Hd. split.
  - unfold spawn. rewrite Hd. reflexivity.
  - intros Hp Hgo Hw Hl. simpl. unfold updateTick. rewrite Hp, Hgo. cbn [negb andb].
    rewrite (bind_Some _ _ _ _ _ (moveWords_spec m g)). rewrite Hw.
    change (Nat.iter _ loseLife (Model.set_words m _)) with (Model.set_words m []).
    rewrite (bind_Some _ _ _ _ _ (updateEffects_filter _ g)).
    unfold maybeAddWord, shouldSpawn. record_simpl.
    change (cap VariantB <=? len_slice []) with false. cbv iota.
    assert (Hmin : (len_slice (@nil word) <? minWords (Model.level m)) = true).
    { apply Z.ltb_lt. unfold minWords, len_slice. simpl.
      pose proof (Z.quot_pos (Model.level m) 3 ltac:(lia) ltac:(lia)) as Hq.
      pose proof (Z.mul_quot_le (Model.level m) 3 ltac:(lia) ltac:(lia)) as Hq3.
      rewrite maxInt_eq in Hl.
      rewrite add_small by (rewrite minInt_eq, maxInt_eq; lia). lia. }
    rewrite Hmin. unfold bind, ret, spawn. record_simpl. rewrite Hd. reflexivity.
Qed.

(** X12. [createExplosion] panics exactly for a word of no letter, on
    [i % wordLen]; whatever the position and the draws. (A HIT is on a
    word that starts with an input that is not empty.) *)
Theorem createExplosion_panics x y wordLen g :
  createExplosion x y wordLen g = None <-> wordLen = 0.
Proof.
  split.
  - intros Hnone. destruct (Z.eq_dec wordLen 0) as [E|E]; [exact E|].
    destruct (createExplosion_total x y wordLen g E) as (e & g' & He).
    congruence.
  - intros ->. reflexivity.
Qed.

(** X13. Loading, whatever [strings.TrimSpace] and [strings.ToLower] do:
    the dictionary is, in the order of the file, the lower case of the
    trimmed lines that pass the length test, and the error is the one of the
    scanner. The test counts the bytes of the trimmed line, before it is put
    in lower case: at least 1, and at most 12 in [VariantB]. An entry itself
    has at most [UTFMax] bytes for each byte of that line, so 48 at most in
    [VariantB], when the lines are lines of the scanner. *)
Theorem loadDictionary_filter v lines scanErr :
  loadDictionary v (File lines scanErr)
  = (List.map ToLower (List.filter (accepted v) (List.map TrimSpace lines)), scanErr)
  /\ Forall (fun w => exists line,
                line ∈ lines /\ w = ToLower (TrimSpace line)
                /\ 1 <= len (TrimSpace line)
                /\ (v = VariantB -> len (TrimSpace line) <= 12))
       (fst (loadDictionary v (File lines scanErr)))
  /\ (scannable (File lines scanErr) ->
      Forall (fun w => len w <= maxEntry v)
        (fst (loadDictionary v (File lines scanErr)))).
Proof.
  rewrite loadDictionary_File. simpl fst. split; [reflexivity|]. split.
  - induction lines as [|line lines IH]; simpl; [constructor|].
    assert (IH' : Forall (fun w => exists line0,
                            line0 ∈ line :: lines /\ w = ToLower (TrimSpace line0)
                            /\ 1 <= len (TrimSpace line0)
                            /\ (v = VariantB -> len (TrimSpace line0) <= 12))
                    (List.map ToLower
                       (List.filter (accepted v) (List.map TrimSpace lines)))).
    { eapply Forall_impl; [exact IH|]. intros w (l & Hl & Hw).
      exists l. split; [right; exact Hl | exact Hw]. }
    destruct (accepted v (TrimSpace line)) eqn:Hacc; [|exact IH'].
    simpl. constructor; [|exact IH'].
    exists line. split; [left|]. split; [reflexivity|].
    unfold accepted in Hacc. destruct v.
    + apply Z.ltb_lt in Hacc. split; [lia | discriminate].
    + apply andb_true_iff in Hacc as [H1 H2]. apply Z.leb_le in H1, H2.
      split; [exact H1 | intros _; exact H2].
  - simpl. intros Hscan.
    induction lines as [|line lines IH]; simpl; [constructor|].
    apply Forall_cons in Hscan as [Hline Hscan].
    destruct (accepted v (TrimSpace line)) eqn:Hacc; simpl; [|auto].
    constructor; [|auto]. apply entry_len; assumption.
Qed.

(** X14. [main] exits before the game starts exactly when the file cannot
    be opened, the scanner reports an error (the words read so far are
    dropped), or no line is accepted once trimmed by [strings.TrimSpace],
    whatever it takes for white space. Otherwise the game
    starts on the loaded dictionary, which is not empty, with three lives,
    at level 1, with no word and no effect. *)
Theorem start_fails v r now :
  (start v r now = None <->
   match r with
   | Unopenable _ => True
   | File lines scanErr =>
       scanErr <> None
       \/ Forall (fun line => accepted v (TrimSpace line) = false) lines
   end)
  /\ (forall m, start v r now = Some m ->
        m = initialModel (fst (loadDictionary v r)) now
        /\ Model.dict m <> []
        /\ Model.lives m = 3 /\ Model.level m = 1
        /\ Model.words m = [] /\ Model.effects m = []).
Proof.
  unfold start. destruct r as [err|lines scanErr].
  { simpl. split; [tauto|discriminate]. }
  rewrite loadDictionary_File.
  assert (Hempty : len_slice (List.map ToLower
                                (List.filter (accepted v) (List.map TrimSpace lines))) = 0
                   <-> Forall (fun line => accepted v (TrimSpace line) = false) lines).
  { unfold len_slice. induction lines as [|line lines IH]; simpl.
    - split; [constructor | reflexivity].
    - destruct (accepted v (TrimSpace line)) eqn:Ha; simpl.
      + split; [lia|]. intros H. apply Forall_cons in H as [H _]. congruence.
      + rewrite IH. split; [intros H; constructor; assumption|].
        intros H. apply Forall_cons in H as [_ H]. exact H. }
  destruct scanErr as [e|].
  { split; [split; [left; discriminate | reflexivity] | discriminate]. }
  simpl fst.
  destruct (len_slice _ =? 0) eqn:E.
  - apply Z.eqb_eq in E. split; [|discriminate].
    split; [intros _; right; apply Hempty; exact E | reflexivity].
  - apply Z.eqb_neq in E. split.
    + split; [discriminate|]. intros [H|H]; [congruence|].
      apply Hempty in H. contradiction.
    + intros m Hm. injection Hm as <-. simpl.
      repeat split. intros Hnil. apply E. rewrite Hnil. reflexivity.
Qed.

(** X15. The pause flag stops the ticks only: a key other than the pause
    key acts on a paused game exactly as on a running one, a HIT, its
    score and its explosion included, and never changes the flag. *)
Theorem keys_while_paused v m key g b :
  pauseKey v key = false ->
  Update v (Model.set_paused m b) (KeyMsg key) g
  = (fun r => (Model.set_paused r.1.1 b, r.1.2, r.2)) <$> Update v m (KeyMsg key) g.
Proof. intros Hp. apply updateKey_set_paused. exact Hp. Qed.

(** X16. The window size is recorded and never read: on any message but a
    [tea.WindowSizeMsg], [Update] does to a game with another size what it
    does to the game, and leaves the size as it is. *)
Theorem size_is_never_read v m msg g w h :
  (forall w' h', msg <> WindowSizeMsg w' h') ->
  Update v (Model.set_size m w h) msg g
  = (fun r => (Model.set_size r.1.1 w h, r.1.2, r.2)) <$> Update v m msg g.
Proof.
  intros Hmsg. destruct msg as [key| |w' h'|]; unfold Update.
  - apply updateKey_set_size.
  - apply updateTick_set_size.
  - destruct (Hmsg w' h'). reflexivity.
  - reflexivity.
Qed.

(** X17. A letter that continues a falling word without completing it,
    then a backspace: the input buffer is what it was, but no word is
    current any more and the word keeps the [matched] of the letter taken
    back. Nothing else has changed, and nothing was drawn. *)
Theorem backspace_takes_back v m key g i w :
  Model.gameOver m = false -> isLetter key = true -> quitKey v key = false ->
  list_find (startsWith (String.append (Model.input m) key)) (Model.words m)
  = Some (i, w) ->
  Word.text w <> String.append (Model.input m) key ->
  run v [KeyMsg key; KeyMsg "backspace"] m g
  = Some (Model.set_current
            (Model.set_words m
               (<[i := Word.set_matched w (len (Model.input m) + 1)]> (Model.words m)))
            None, g).
Proof.
  intros Hgo Hk Hq Hfind Hne.
  pose proof (updateKey_letter_spec v m key g Hgo Hk Hq) as Hspec.
  cbv zeta in Hspec. rewrite Hfind in Hspec.
  destruct (String.eqb_spec (String.append (Model.input m) key) (Word.text w)) as [E|_];
    [congruence|].
  simpl run. rewrite (bind_Some _ _ _ _ _ Hspec). simpl fst.
  set (m1 := track i w _).
  assert (Hb : updateKey v m1 "backspace" g
               = Some (Model.set_current
                         (Model.set_input m1 (dropLast (Model.input m1))) None,
                       nilCmd, g)).
  { unfold updateKey. change (Model.gameOver m1) with (Model.gameOver m).
    rewrite Hgo. rewrite dropLast_set_input. destruct v; reflexivity. }
  rewrite (bind_Some _ _ _ _ _ Hb). simpl fst. unfold ret, m1, track. record_simpl.
  rewrite (dropLast_append_letter _ _ Hk).
  assert (Hlen : len (String.append (Model.input m) key) = len (Model.input m) + 1).
  { apply isLetter_inv in Hk as (c & -> & _). unfold len.
    rewrite length_append. simpl. lia. }
  rewrite Hlen. reflexivity.
Qed.

(** X18. From level 21 on, [VariantB] spawns a word on every tick on which
    there are fewer than eight words, and draws nothing to decide it:
    [minWords = 1 + level/3] has reached the cap. *)
Theorem spawn_is_certain m g :
  21 <= Model.level m <= maxInt ->
  len_slice (Model.words m) < cap VariantB ->
  maybeAddWord VariantB m g = spawn m g.
Proof.
  intros Hl Hc. unfold maybeAddWord.
  apply Z.leb_gt in Hc. rewrite Hc. apply Z.leb_gt in Hc.
  rewrite maxInt_eq in Hl. unfold shouldSpawn.
  assert (Hmin : (len_slice (Model.words m) <? minWords (Model.level m)) = true).
  { apply Z.ltb_lt. unfold minWords, cap in *.
    assert (Hq : 7 <= Z.quot (Model.level m) 3)
      by (apply Z.quot_le_lower_bound; lia).
    pose proof (Z.mul_quot_le (Model.level m) 3 ltac:(lia) ltac:(lia)) as Hq3.
    rewrite add_small by (rewrite minInt_eq, maxInt_eq; lia). lia. }
  rewrite Hmin. reflexivity.
Qed.

(** X19. A tick, in any state whatever, changes nothing but the words, the
    effects, the lives and the game-over flag: the score, the level,
    [wordsTyped], the dictionary, the pause flag and the window size stay,
    and so do the input buffer and the current word, even when the word
    being typed has just left the screen. *)
Theorem tick_frame v m g m' c g' :
  Update v m tickMsg g = Some (m', c, g') ->
  exists ws es l o,
    m' = Model.set_words
           (Model.set_effects (Model.set_gameOver (Model.set_lives m l) o) es) ws.
Proof.
  simpl. unfold updateTick. destruct (negb _ && negb _).
  2:{ intros H. injection H as <- _ _.
      exists (Model.words m), (Model.effects m), (Model.lives m), (Model.gameOver m).
      reflexivity. }
  rewrite (bind_Some _ _ _ _ _ (moveWords_spec m g)).
  rewrite iter_loseLife_set_words.
  destruct (iter_loseLife_frame
              (length (filter fallen (descend <$> Model.words m))) m)
    as (l & o & ->).
  set (m1 := Model.set_words _ _).
  assert (H2 : match v with VariantA => ret m1 | VariantB => updateEffects m1 end g
               = Some (Model.set_effects m1 (decayed v (Model.effects m1)), g)).
  { destruct v; [reflexivity | apply updateEffects_filter]. }
  rewrite (bind_Some _ _ _ _ _ H2). unfold bind.
  set (m2 := Model.set_effects m1 _).
  destruct (maybeAddWord v m2 g) as [[m3 g3]|] eqn:Hm3; [|discriminate].
  intros H. injection H as <- _ _.
  apply maybeAddWord_frame in Hm3 as (ws & ->).
  exists ws, (decayed v (Model.effects m1)), l, o. reflexivity.
Qed.

End Further3.

(** X11, witness: the game on an empty dictionary. *)
Lemma empty_dictionary_panics_witness :
  spawn (initialModel [] 0) (oracle []) = None
  /\ Update (ML := seriesMath) VariantB (initialModel [] 0) tickMsg (oracle []) = None.
Proof.
  split.
  - apply (empty_dictionary_panics (ML := seriesMath) (initialModel [] 0) (oracle [])).
    reflexivity.
  - apply (empty_dictionary_panics (ML := seriesMath) (initialModel [] 0) (oracle []));
      try reflexivity.
    simpl. rewrite maxInt_eq. lia.
Defined.

(** X15, witness: the letter [t] on [typing], paused. *)
Lemma keys_while_paused_witness :
  Update (ML := seriesMath) VariantB (Model.set_paused typing true) (KeyMsg "t")
    (oracle otherDraws)
  = (fun r => (Model.set_paused r.1.1 true, r.1.2, r.2))
      <$> Update (ML := seriesMath) VariantB typing (KeyMsg "t") (oracle otherDraws).
Proof.
  apply (keys_while_paused (ML := seriesMath) VariantB typing "t" (oracle otherDraws) true).
  reflexivity.
Defined.

(** X16, witness: a tick of [started] in a window of 120 by 40. *)
Lemma size_is_never_read_witness :
  Update (ML := seriesMath) VariantB (Model.set_size started 120 40) tickMsg (oracle [half])
  = (fun r => (Model.set_size r.1.1 120 40, r.1.2, r.2))
      <$> Update (ML := seriesMath) VariantB started tickMsg (oracle [half]).
Proof.
  apply (size_is_never_read (ML := seriesMath) VariantB started tickMsg (oracle [half]) 120 40).
  intros w' h'. discriminate.
Defined.

(** X17, witness: [a], then a backspace, on [started]. *)
Lemma backspace_takes_back_witness :
  run (ML := seriesMath) VariantB [KeyMsg "a"; KeyMsg "backspace"] started (oracle [])
  = Some (Model.set_current
            (Model.set_words started
               (<[0%nat := Word.set_matched (cat 7 0 1) (len (Model.input started) + 1)]>
                  (Model.words started)))
            None, oracle []).
Proof.
  apply (backspace_takes_back (ML := seriesMath) VariantB started "a" (oracle [])
           0%nat (cat 7 0 1)).
  - reflexivity.
  - reflexivity.
  - reflexivity.
  - reflexivity.
  - discriminate.
Defined.

(** X18, witness: [lastLife] at level 21, its word gone. *)
Lemma spawn_is_certain_witness :
  maybeAddWord VariantB (Model.set_level (Model.set_words lastLife []) 21)
    (oracle [0; 40]%N)
  = spawn (Model.set_level (Model.set_words lastLife []) 21) (oracle [0; 40]%N).
Proof.
  apply (spawn_is_certain
           (Model.set_level (Model.set_words lastLife []) 21) (oracle [0; 40]%N)).
  - simpl. rewrite maxInt_eq. lia.
  - reflexivity.
Defined.

(** X19, witness: the tick of [lastLife]. *)
Lemma tick_frame_witness :
  exists ws es l o,
    lastLifeAfter
    = Model.set_words
        (Model.set_effects (Model.set_gameOver (Model.set_lives lastLife l) o) es) ws.
Proof.
  apply (tick_frame (ML := seriesMath) VariantB lastLife (oracle [0; 40]%N)
           lastLifeAfter tickCmd (advance (advance (oracle [0; 40]%N)))).
  reflexivity.
Defined.
